(** * Mini MMORPG clients: world-state synchronisation

    A shallow embedding of the browser clients of the repository:
    - [Game]: the [GameClient] class of game.js (camera, roster handlers,
      reconnection, frame resolution, keyboard translation);
    - [DebugGame]: the frame resolution of debug_game.js, where it differs;
    - [Script]: the second client of script.js (table-level roster update and
      the held-key keyboard translation);
    - [Canvas], [DebugCamera]: the backdrop blit of game.js and the camera
      of debug_game.js;
    - [Script1]: the first client of script.js (viewport, animation timer,
      roster and keyboard translation);
    - [Wire]: the messages whose keys are not names of properties of
      [Object.prototype], and the states reached through them;
    - [Connect]: the event loop of game.js with a [WebSocket] constructor
      that may throw.

    JavaScript objects used as dictionaries are finite maps with string keys;
    player objects live in a store of mutable records, addressed by location,
    so that two references to one object stay two names for one record. *)

From Stdlib Require Import ZArith QArith Qround Lia Lqa String Ascii.
From stdpp Require Import base option list strings gmap.

(** ** JavaScript values and numbers *)

Module JS.

(** A finite number is an exact rational; [NaN] is the result of arithmetic
    on a missing or non-numeric operand. Doubles are not modelled: window
    sizes are integers and the bounds proved below do not depend on how a
    difference is rounded. *)
Inductive num : Type :=
| Fin (q : Q)
| NaN.

(** Scalar values of a parsed JSON object. *)
Inductive value : Type :=
| VNum (q : Q)
| VStr (s : string)
| VBool (b : bool)
| VNull.

(** A JavaScript object with scalar fields; a missing key reads [undefined]. *)
Abbreviation record := (gmap string value).

(** Truthiness of [o.k] (the test of [if (o.k)] and of [o.k || d]). *)
Definition truthy (v : option value) : bool :=
  match v with
  | Some (VNum q) => negb (Qeq_bool q 0%Q)
  | Some (VStr s) => negb (String.eqb s "")
  | Some (VBool b) => b
  | Some VNull | None => false
  end.

(** [ToNumber] of [o.k]. Numeric strings are not converted: on the wire a
    coordinate or a frame index is a JSON number. *)
Definition ToNumber (v : option value) : num :=
  match v with
  | Some (VNum q) => Fin q
  | Some (VBool true) => Fin 1%Q
  | Some (VBool false) | Some VNull => Fin 0%Q
  | Some (VStr _) | None => NaN
  end.

Definition ofZ (z : Z) : num := Fin (inject_Z z).

Definition sub (a b : num) : num :=
  match a, b with
  | Fin x, Fin y => Fin (x - y)%Q
  | _, _ => NaN
  end.

Definition add (a b : num) : num :=
  match a, b with
  | Fin x, Fin y => Fin (x + y)%Q
  | _, _ => NaN
  end.

(** [Math.max], [Math.min]: [NaN] if either argument is. *)
Definition Math_max (a b : num) : num :=
  match a, b with
  | Fin x, Fin y => Fin (if Qle_bool x y then y else x)
  | _, _ => NaN
  end.

Definition Math_min (a b : num) : num :=
  match a, b with
  | Fin x, Fin y => Fin (if Qle_bool x y then x else y)
  | _, _ => NaN
  end.

(** [Math.round]: the nearest integer, a tie going up. *)
Definition Math_round (a : num) : num :=
  match a with
  | Fin x => ofZ (Qfloor (x + (1 # 2))%Q)
  | NaN => NaN
  end.

(** [v === "s"] against a string literal. *)
Definition strictEqStr (v : option value) (s : string) : bool :=
  match v with
  | Some (VStr t) => String.eqb t s
  | _ => false
  end.

(** [Object.assign(target, source)]: every own key of the source overwrites
    the target's, the other keys of the target stay. *)
Definition Object_assign (target source : record) : record := source ∪ target.

(** [a[i]] on an array: an element only at an integer index in range. *)
Definition index {A} (a : list A) (i : num) : option A :=
  match i with
  | Fin q =>
      let z := Qfloor q in
      if Qeq_bool q (inject_Z z) && (0 <=? z)%Z then a !! Z.to_nat z else None
  | NaN => None
  end.

End JS.

(** ** game.js: the [GameClient] class *)

Module Game.
Import JS.

(** A player object is named by the message that delivered it (its arrival
    number) and the id it was delivered under: every parsed message yields
    objects distinct from all earlier ones. *)
Abbreviation loc := (nat * string)%type.

Module Image.
Record t : Type := mk { src : string; complete : bool }.
End Image.

Module Avatar.
Record t : Type := mk {
    name : string;
    frames : option (gmap string (list string));
    loadedImagesByDir : option (gmap string (list Image.t)) }.
End Avatar.

Module Camera.
Record t : Type := mk { x : num; y : num; width : Z; height : Z }.
End Camera.

Inductive ReadyState : Type := CONNECTING | OPEN | CLOSING | CLOSED.

(** Inbound messages, after [JSON.parse], by their [action]. For
    [player_joined], [id] is [message.player.id] and [player] holds the
    other fields of [message.player]. *)
Inductive ServerMessage : Type :=
| join_game (success : bool) (playerId : string)
    (players : gmap string record) (avatars : gmap string Avatar.t)
    (error : option string)
| player_joined (id : string) (player : record) (avatar : Avatar.t)
| players_moved (players : gmap string record)
| player_left (playerId : string)
| other_action.

(** Outbound messages. *)
Inductive ClientMessage : Type :=
| JoinGame (username : string)
| MoveDirection (direction : string)
| MoveTo (x y : num)
| Stop.

(** What a handler does to the outside, in order. [Centered] marks one
    execution of the body of [centerCameraOnPlayer]. *)
Inductive effect : Type :=
| Send (m : ClientMessage)
| SetTimeout (ms : Z)
| ConsoleError (text : string) (detail : option string)
| Centered.

Record GameClient : Type := mkClient {
  worldWidth : Z;
  worldHeight : Z;
  playerId : option string;
  players : gmap string loc;
  avatars : gmap string Avatar.t;
  myPlayer : option loc;
  camera : Camera.t;
  ws : option ReadyState;
  reconnectAttempts : nat;
  maxReconnectAttempts : nat;
  needsRedraw : bool;
  worldImageLoaded : bool;
  playerDataReceived : bool;
  (** the player objects, shared by [players] and [myPlayer] *)
  heap : gmap loc record;
  (** number of inbound messages parsed so far *)
  received : nat }.

Definition set_playerId v s :=
  mkClient (worldWidth s) (worldHeight s) v (players s) (avatars s)
    (myPlayer s) (camera s) (ws s) (reconnectAttempts s)
    (maxReconnectAttempts s) (needsRedraw s) (worldImageLoaded s)
    (playerDataReceived s) (heap s) (received s).
Definition set_players v s :=
  mkClient (worldWidth s) (worldHeight s) (playerId s) v (avatars s)
    (myPlayer s) (camera s) (ws s) (reconnectAttempts s)
    (maxReconnectAttempts s) (needsRedraw s) (worldImageLoaded s)
    (playerDataReceived s) (heap s) (received s).
Definition set_avatars v s :=
  mkClient (worldWidth s) (worldHeight s) (playerId s) (players s) v
    (myPlayer s) (camera s) (ws s) (reconnectAttempts s)
    (maxReconnectAttempts s) (needsRedraw s) (worldImageLoaded s)
    (playerDataReceived s) (heap s) (received s).
Definition set_myPlayer v s :=
  mkClient (worldWidth s) (worldHeight s) (playerId s) (players s) (avatars s)
    v (camera s) (ws s) (reconnectAttempts s)
    (maxReconnectAttempts s) (needsRedraw s) (worldImageLoaded s)
    (playerDataReceived s) (heap s) (received s).
Definition set_camera v s :=
  mkClient (worldWidth s) (worldHeight s) (playerId s) (players s) (avatars s)
    (myPlayer s) v (ws s) (reconnectAttempts s)
    (maxReconnectAttempts s) (needsRedraw s) (worldImageLoaded s)
    (playerDataReceived s) (heap s) (received s).
Definition set_ws v s :=
  mkClient (worldWidth s) (worldHeight s) (playerId s) (players s) (avatars s)
    (myPlayer s) (camera s) v (reconnectAttempts s)
    (maxReconnectAttempts s) (needsRedraw s) (worldImageLoaded s)
    (playerDataReceived s) (heap s) (received s).
Definition set_reconnectAttempts v s :=
  mkClient (worldWidth s) (worldHeight s) (playerId s) (players s) (avatars s)
    (myPlayer s) (camera s) (ws s) v
    (maxReconnectAttempts s) (needsRedraw s) (worldImageLoaded s)
    (playerDataReceived s) (heap s) (received s).
Definition set_needsRedraw v s :=
  mkClient (worldWidth s) (worldHeight s) (playerId s) (players s) (avatars s)
    (myPlayer s) (camera s) (ws s) (reconnectAttempts s)
    (maxReconnectAttempts s) v (worldImageLoaded s)
    (playerDataReceived s) (heap s) (received s).
Definition set_worldImageLoaded v s :=
  mkClient (worldWidth s) (worldHeight s) (playerId s) (players s) (avatars s)
    (myPlayer s) (camera s) (ws s) (reconnectAttempts s)
    (maxReconnectAttempts s) (needsRedraw s) v
    (playerDataReceived s) (heap s) (received s).
Definition set_playerDataReceived v s :=
  mkClient (worldWidth s) (worldHeight s) (playerId s) (players s) (avatars s)
    (myPlayer s) (camera s) (ws s) (reconnectAttempts s)
    (maxReconnectAttempts s) (needsRedraw s) (worldImageLoaded s)
    v (heap s) (received s).
Definition set_heap v s :=
  mkClient (worldWidth s) (worldHeight s) (playerId s) (players s) (avatars s)
    (myPlayer s) (camera s) (ws s) (reconnectAttempts s)
    (maxReconnectAttempts s) (needsRedraw s) (worldImageLoaded s)
    (playerDataReceived s) v (received s).
Definition set_received v s :=
  mkClient (worldWidth s) (worldHeight s) (playerId s) (players s) (avatars s)
    (myPlayer s) (camera s) (ws s) (reconnectAttempts s)
    (maxReconnectAttempts s) (needsRedraw s) (worldImageLoaded s)
    (playerDataReceived s) (heap s) v.

(** The record behind a reference. *)
Definition deref (s : GameClient) (l : loc) : record := default ∅ (heap s !! l).

(** *** Handlers: a state change and the effects it has *)

Definition handler : Type := GameClient → GameClient * list effect.

Definition skip : handler := λ s, (s, []).
Definition modify (f : GameClient → GameClient) : handler := λ s, (f s, []).
Definition emit (e : effect) : handler := λ s, (s, [e]).
Definition andThen (h1 h2 : handler) : handler :=
  λ s, ((h2 (h1 s).1).1, (h1 s).2 ++ (h2 (h1 s).1).2).
Definition when (b : GameClient → bool) (h : handler) : handler :=
  λ s, if b s then h s else skip s.

Notation "h1 ;; h2" := (andThen h1 h2)
  (at level 100, h2 at level 200, right associativity).

(** *** Camera *)

(** One axis of the clamp of [centerCameraOnPlayer]:
    [Math.round(Math.max(0, Math.min(ideal, world - view)))]. *)
Definition clampAxis (pos : num) (view world : Z) : num :=
  let ideal := sub pos (Fin (inject_Z view / 2)) in
  Math_round (Math_max (ofZ 0) (Math_min ideal (ofZ (world - view)))).

Definition centerCameraOnPlayer : handler := λ s,
  match myPlayer s with
  | None => (s, [])
  | Some l =>
      let p := deref s l in
      let c := camera s in
      let c' := Camera.mk
        (clampAxis (ToNumber (p !! "x")) (Camera.width c) (worldWidth s))
        (clampAxis (ToNumber (p !! "y")) (Camera.height c) (worldHeight s))
        (Camera.width c) (Camera.height c) in
      (set_needsRedraw true (set_camera c' s), [Centered])
  end.

Definition checkAndCenterCamera : handler :=
  when (λ s, worldImageLoaded s && playerDataReceived s
             && bool_decide (is_Some (myPlayer s)))
       centerCameraOnPlayer.

(** The window's [resize] listener of [setupCanvas]. *)
Definition onresize (innerWidth innerHeight : Z) : handler :=
  modify (λ s, set_camera
    (Camera.mk (Camera.x (camera s)) (Camera.y (camera s))
               innerWidth innerHeight) s) ;;
  when (λ s, bool_decide (is_Some (myPlayer s))) centerCameraOnPlayer ;;
  modify (set_needsRedraw true).

(** [worldImage.onload] of [loadWorldMap]. *)
Definition onload : handler :=
  modify (set_worldImageLoaded true) ;;
  checkAndCenterCamera ;;
  modify (set_needsRedraw true).

(** *** Connection *)

Definition isOpen (s : GameClient) : bool :=
  match ws s with Some OPEN => true | _ => false end.

(** [new WebSocket(...)] and the installation of its listeners. *)
Definition connectToServer : handler := modify (set_ws (Some CONNECTING)).

Definition joinGame : handler := emit (Send (JoinGame "Blankey")).

(** [setTimeout(() => this.connectToServer(), 2000 * attempt)] *)
Definition retryAfter (attempt : nat) : effect :=
  SetTimeout (2000 * Z.of_nat attempt).

Definition maxReached : effect :=
  ConsoleError "Max reconnection attempts reached" None.

Definition attemptReconnect : handler := λ s,
  if (reconnectAttempts s <? maxReconnectAttempts s)%nat then
    let n := S (reconnectAttempts s) in
    (set_reconnectAttempts n s, [retryAfter n])
  else (s, [maxReached]).

(** [ws.onopen]; the socket is in state [OPEN] when it runs. *)
Definition onopen : handler :=
  modify (set_ws (Some OPEN)) ;;
  modify (set_reconnectAttempts 0%nat) ;;
  joinGame.

(** [ws.onclose]; the socket is in state [CLOSED] when it runs. *)
Definition onclose : handler :=
  modify (set_ws (Some CLOSED)) ;; attemptReconnect.

(** *** Avatars *)

Definition newImage (dataUrl : string) : Image.t := Image.mk dataUrl false.

(** [frames.forEach((dataUrl, idx) => loaded[idx] = img)] on the array
    [loaded]: the first [length frames] slots are written, later ones stay. *)
Definition loadFrames (frames : list string) (loaded : list Image.t)
  : list Image.t :=
  (newImage <$> frames) ++ drop (length frames) loaded.

Definition preloadAvatar (a : Avatar.t) : Avatar.t :=
  match Avatar.frames a with
  | None => a
  | Some fr =>
      let old := default ∅ (Avatar.loadedImagesByDir a) in
      let new := map_imap
        (λ dir urls, Some (loadFrames urls (default [] (old !! dir)))) fr in
      Avatar.mk (Avatar.name a) (Avatar.frames a) (Some (new ∪ old))
  end.

Definition preloadAvatars : handler :=
  modify (λ s, set_avatars (preloadAvatar <$> avatars s) s).

(** The browser has decoded one image: its [complete] flag is set. *)
Definition decoded (dir : string) (idx : nat) (a : Avatar.t) : Avatar.t :=
  Avatar.mk (Avatar.name a) (Avatar.frames a)
    (alter (alter (λ i, Image.mk (Image.src i) true) idx) dir
       <$> Avatar.loadedImagesByDir a).

Definition ondecoded (name dir : string) (idx : nat) : handler :=
  modify (λ s, set_avatars (alter (decoded dir idx) name (avatars s)) s).

(** *** Roster *)

(** The key read by [o[this.playerId]]: [null] reads the key "null". *)
Definition playerKey (s : GameClient) : string := default "null" (playerId s).

(** The objects of the [players] snapshot of message [n]: the table that
    refers to them, and the objects themselves. *)
Definition snapshotTable (n : nat) (ps : gmap string record)
  : gmap string loc :=
  map_imap (λ id _, Some (n, id)) ps.

Definition snapshotObjects (n : nat) (ps : gmap string record)
  : gmap loc record :=
  kmap (pair n) ps.

Definition handleJoinGameSuccess (n : nat) (pid : string)
    (ps : gmap string record) (avs : gmap string Avatar.t) : handler :=
  modify (λ s,
    set_myPlayer (snapshotTable n ps !! pid)
      (set_avatars avs
        (set_players (snapshotTable n ps)
          (set_heap (snapshotObjects n ps ∪ heap s)
            (set_playerId (Some pid) s))))) ;;
  modify (set_playerDataReceived true) ;;
  checkAndCenterCamera ;;
  preloadAvatars ;;
  modify (set_needsRedraw true).

Definition handlePlayerJoined (n : nat) (id : string) (player : record)
    (avatar : Avatar.t) : handler :=
  modify (λ s,
    set_avatars (<[Avatar.name avatar := preloadAvatar avatar]> (avatars s))
      (set_players (<[id := (n, id)]> (players s))
        (set_heap (<[(n, id) := <["id" := VStr id]> player]> (heap s)) s))) ;;
  modify (set_needsRedraw true).

(** The loop of [handlePlayersMoved]: every id of the update that is in the
    table has its record merged in place. *)
Definition mergeMoved (table : gmap string loc) (upd : gmap string record)
    (h : gmap loc record) : gmap loc record :=
  map_fold (λ pid u h,
      match table !! pid with
      | Some l => alter (λ r, Object_assign r u) l h
      | None => h
      end) h upd.

Definition handlePlayersMoved (upd : gmap string record) : handler :=
  modify (λ s, set_heap (mergeMoved (players s) upd (heap s)) s) ;;
  (λ s, match myPlayer s, upd !! playerKey s with
        | Some l, Some u =>
            (modify (set_heap (alter (λ r, Object_assign r u) l (heap s))) ;;
             centerCameraOnPlayer) s
        | _, _ => skip s
        end) ;;
  modify (set_needsRedraw true).

Definition handlePlayerLeft (id : string) : handler :=
  modify (λ s, set_players (delete id (players s)) s) ;;
  modify (set_needsRedraw true).

Definition handleServerMessage (n : nat) (m : ServerMessage) : handler :=
  match m with
  | join_game success pid ps avs err =>
      if success then handleJoinGameSuccess n pid ps avs
      else emit (ConsoleError "Join game failed:" err)
  | player_joined id player avatar => handlePlayerJoined n id player avatar
  | players_moved upd => handlePlayersMoved upd
  | player_left id => handlePlayerLeft id
  | other_action => skip
  end.

(** [ws.onmessage] on a message that parses: the objects of the message are
    new, then the message is handled. *)
Definition onmessage (m : ServerMessage) : handler :=
  (λ s, handleServerMessage (received s) m s) ;;
  modify (λ s, set_received (S (received s)) s).

(** [ws.onmessage] on data that does not parse. *)
Definition onbadmessage : handler :=
  emit (ConsoleError "Error parsing server message:" None).

(** *** Rendering: which frame of which sequence *)

(** The string used when a field value is a property key; the conversion of
    a number to a key is not modelled (such a key finds nothing). *)
Definition propertyKey (v : option value) : option string :=
  match v with
  | Some (VStr s) => Some s
  | Some (VBool true) => Some "true"
  | Some (VBool false) => Some "false"
  | Some VNull => Some "null"
  | None => Some "undefined"
  | Some (VNum _) => None
  end.

(** [!frames || frames.length === 0] *)
Definition noFrames {A} (frames : option (list A)) : bool :=
  match frames with
  | None | Some [] => true
  | Some (_ :: _) => false
  end.

(** [a < b] on numbers: false when either is [NaN]. *)
Definition lt (a b : num) : bool :=
  match a, b with
  | Fin p, Fin q => negb (Qle_bool q p)
  | _, _ => false
  end.

(** Lines 258-273 of [drawPlayer]: the image to draw and whether it is
    mirrored, or nothing when the player is skipped. *)
Definition resolveFrame (avs : gmap string Avatar.t) (player : record)
  : option (Image.t * bool) :=
  avatar ← propertyKey (player !! "avatar") ≫= (avs !!.);
  byDir ← Avatar.loadedImagesByDir avatar;
  let dir := if truthy (player !! "facing") then player !! "facing"
             else Some (VStr "south") in
  let frames := propertyKey dir ≫= (byDir !!.) in
  let west := strictEqStr dir "west" in
  let '(frames, flipX) :=
    if noFrames frames && west then (byDir !! "east", true)
    else (frames, false) in
  if noFrames frames then None
  else
    let fs := default [] frames in
    let frameIdx := if truthy (player !! "animationFrame")
                    then ToNumber (player !! "animationFrame") else ofZ 0 in
    img ← index fs (Math_min frameIdx (ofZ (Z.of_nat (length fs) - 1)));
    Some (img, flipX).

Module Sprite.
Record t : Type := mk { img : Image.t; flipX : bool; screenX : num; screenY : num }.
End Sprite.

(** [drawPlayer] up to the canvas calls: off-screen players, players without
    a resolved frame and frames not yet decoded draw nothing. *)
Definition drawPlayer (s : GameClient) (player : record) : option Sprite.t :=
  let c := camera s in
  let screenX := sub (ToNumber (player !! "x")) (Camera.x c) in
  let screenY := sub (ToNumber (player !! "y")) (Camera.y c) in
  if lt screenX (ofZ (-64)) || lt (ofZ (Camera.width c + 64)) screenX
     || lt screenY (ofZ (-64)) || lt (ofZ (Camera.height c + 64)) screenY
  then None
  else
    '(img, flipX) ← resolveFrame (avatars s) player;
    if Image.complete img then Some (Sprite.mk img flipX screenX screenY)
    else None.

(** [drawPlayers]: one attempt per entry of the table (the order in which
    the entries are drawn is not modelled). *)
Definition drawPlayers (s : GameClient) : list Sprite.t :=
  omap (λ l, drawPlayer s (deref s l)) (map_to_list (players s)).*2.

(** One turn of the render loop. *)
Definition onframe : handler := modify (set_needsRedraw false).

(** *** Input *)

Inductive payload : Type :=
| Direction (direction : string)
| Target (x y : num).

Definition sendMoveCommand (p : payload) : handler := λ s,
  if negb (isOpen s) then (s, [])
  else match p with
       | Direction d => (s, [Send (MoveDirection d)])
       | Target x y => (s, [Send (MoveTo x y)])
       end.

Definition sendStopCommand : handler := λ s,
  if negb (isOpen s) then (s, []) else (s, [Send Stop]).

(** The [switch] of the [keydown] listener. *)
Definition directionOfKey (key : string) : option string :=
  if bool_decide (key ∈ ["ArrowUp"; "w"; "W"]) then Some "up"
  else if bool_decide (key ∈ ["ArrowDown"; "s"; "S"]) then Some "down"
  else if bool_decide (key ∈ ["ArrowLeft"; "a"; "A"]) then Some "left"
  else if bool_decide (key ∈ ["ArrowRight"; "d"; "D"]) then Some "right"
  else None.

Definition onkeydown (key : string) : handler :=
  match directionOfKey key with
  | Some d => sendMoveCommand (Direction d)
  | None => skip
  end.

Definition movementKeys : list string :=
  ["ArrowUp"; "ArrowDown"; "ArrowLeft"; "ArrowRight";
   "w"; "W"; "a"; "A"; "s"; "S"; "d"; "D"].

(** "Stop on keyup of any movement key". *)
Definition onkeyup (key : string) : handler :=
  if bool_decide (key ∈ movementKeys) then sendStopCommand else skip.

Definition onblur : handler := sendStopCommand.

(** A click at canvas coordinates [(x, y)]. *)
Definition onclick (x y : Q) : handler := λ s,
  sendMoveCommand
    (Target (Math_round (add (Fin x) (Camera.x (camera s))))
            (Math_round (add (Fin y) (Camera.y (camera s))))) s.

(** *** The event loop *)

Inductive Event : Type :=
| Resize (innerWidth innerHeight : Z)
| WorldImageLoad
| AvatarImageLoad (name dir : string) (idx : nat)
| WsOpen
| WsClose
| WsMessage (m : ServerMessage)
| WsBadMessage
| Timeout
| AnimationFrame
| KeyDown (key : string)
| KeyUp (key : string)
| Blur
| Click (x y : Q).

Definition step (e : Event) : handler :=
  match e with
  | Resize w h => onresize w h
  | WorldImageLoad => onload
  | AvatarImageLoad name dir idx => ondecoded name dir idx
  | WsOpen => onopen
  | WsClose => onclose
  | WsMessage m => onmessage m
  | WsBadMessage => onbadmessage
  | Timeout => connectToServer
  | AnimationFrame => onframe
  | KeyDown k => onkeydown k
  | KeyUp k => onkeyup k
  | Blur => onblur
  | Click x y => onclick x y
  end.

(** The client after its constructor and [init], in a window of the given
    size: the canvas is sized, the socket is connecting and the first turn
    of the render loop has drawn. *)
Definition init (innerWidth innerHeight : Z) : GameClient :=
  mkClient 2048 2048 None ∅ ∅ None
    (Camera.mk (ofZ 0) (ofZ 0) innerWidth innerHeight)
    (Some CONNECTING) 0 5 false false false ∅ 0.

Fixpoint run (es : list Event) (s : GameClient) : GameClient * list effect :=
  match es with
  | [] => (s, [])
  | e :: es' =>
      let r := step e s in
      let r' := run es' r.1 in
      (r'.1, r.2 ++ r'.2)
  end.

Inductive reachable : GameClient → Prop :=
| reach_init w h : reachable (init w h)
| reach_step e s : reachable s → reachable (step e s).1.

(** *** Shape of the store in the states the client reaches *)

(** A table entry refers to an object delivered under that very id. *)
Definition table_keyed (s : GameClient) : Prop :=
  ∀ id l, players s !! id = Some l → l.2 = id.

(** The local reference refers to an object delivered under the local id. *)
Definition self_keyed (s : GameClient) : Prop :=
  ∀ l, myPlayer s = Some l → playerId s = Some l.2.

(** A local reference exists only once a join response was accepted. *)
Definition self_after_join (s : GameClient) : Prop :=
  is_Some (myPlayer s) → playerDataReceived s = true.

(** References are never dangling. *)
Definition table_allocated (s : GameClient) : Prop :=
  ∀ id l, players s !! id = Some l → is_Some (heap s !! l).

Definition self_allocated (s : GameClient) : Prop :=
  ∀ l, myPlayer s = Some l → is_Some (heap s !! l).

Definition wf (s : GameClient) : Prop :=
  table_keyed s ∧ self_keyed s ∧ self_after_join s
  ∧ table_allocated s ∧ self_allocated s.

(** The objects the client still holds a reference to. *)
Definition referenced (s : GameClient) (l : loc) : Prop :=
  players s !! l.2 = Some l ∨ myPlayer s = Some l.

(** The local reference and the table entry of the local id are one object. *)
Definition aliased (s : GameClient) (pid : string) (l : loc) : Prop :=
  playerId s = Some pid ∧ myPlayer s = Some l ∧ players s !! pid = Some l.

(** The events of a run of [players_moved] messages. *)
Definition moves (upds : list (gmap string record)) : list Event :=
  (λ u, WsMessage (players_moved u)) <$> upds.

End Game.

(** ** debug_game.js: where its [drawPlayer] differs *)

Module DebugGame.
Import JS.

Module Avatar.
Record t : Type := mk {
    name : string;
    frames : gmap string (list string);
    (** images by frame index alone, as [preloadAvatar] stores them *)
    loadedImages : option (gmap nat Game.Image.t) }.
End Avatar.

(** [frames[frameIndex]] where the index is a field value; an index on the
    wire is a number. *)
Definition frameAt (fs : list string) (frameIndex : option value)
  : option string :=
  match frameIndex with
  | Some (VNum q) => index fs (Fin q)
  | _ => None
  end.

(** Lines 357-374 of [drawPlayer]: the frame to draw and whether it is
    mirrored, or nothing when the function returns early. *)
Definition resolveFrame (avs : gmap string Avatar.t) (player : record)
  : option (string * bool) :=
  avatar ← Game.propertyKey (player !! "avatar") ≫= (avs !!.);
  _ ← Avatar.loadedImages avatar;
  let west := strictEqStr (player !! "facing") "west" in
  let frames := Game.propertyKey (player !! "facing")
                  ≫= (Avatar.frames avatar !!.) in
  let frames := if negb (bool_decide (is_Some frames)) && west
                then Avatar.frames avatar !! "east" else frames in
  fs ← frames;
  let frameIndex := if truthy (player !! "animationFrame")
                    then player !! "animationFrame" else Some (VNum 0) in
  frameData ← frameAt fs frameIndex;
  if String.eqb frameData "" then None else Some (frameData, west).

End DebugGame.

(** ** script.js: the second client *)

Module Script.
Import JS.

(** An object whose keys are enumerated: entries in insertion order. *)
Definition getKey (o : list (string * bool)) (k : string) : option bool :=
  (list_find (λ e, e.1 = k) o) ≫= (λ r, Some r.2.2).

Fixpoint setKey (o : list (string * bool)) (k : string) (v : bool)
  : list (string * bool) :=
  match o with
  | [] => [(k, v)]
  | (k', v') :: o' =>
      if String.eqb k' k then (k, v) :: o' else (k', v') :: setKey o' k v
  end.

(** [String.prototype.toLowerCase], on ASCII letters. *)
Definition lowerAscii (c : ascii) : ascii :=
  let n := nat_of_ascii c in
  if (65 <=? n)%nat && (n <=? 90)%nat then ascii_of_nat (n + 32) else c.

Fixpoint toLowerCase (s : string) : string :=
  match s with
  | EmptyString => EmptyString
  | String c s' => String (lowerAscii c) (toLowerCase s')
  end.

(** [s.replace(pat, rep)] with a string pattern: the first occurrence. *)
Fixpoint replace (pat rep s : string) : string :=
  if String.prefix pat s then rep +:+ String.substring (String.length pat)
                                   (String.length s - String.length pat) s
  else match s with
       | EmptyString => EmptyString
       | String c s' => String c (replace pat rep s')
       end.

Module Viewport.
Record t : Type := mk { x : num; y : num }.
End Viewport.

Record State : Type := mkState {
  myPlayerId : option string;
  players : gmap string record;
  avatars : gmap string Game.Avatar.t;
  keysPressed : list (string * bool);
  viewport : Viewport.t;
  canvasWidth : Z;
  canvasHeight : Z;
  readyState : Game.ReadyState }.

Definition set_myPlayerId v s :=
  mkState v (players s) (avatars s) (keysPressed s) (viewport s)
    (canvasWidth s) (canvasHeight s) (readyState s).
Definition set_players v s :=
  mkState (myPlayerId s) v (avatars s) (keysPressed s) (viewport s)
    (canvasWidth s) (canvasHeight s) (readyState s).
Definition set_avatars v s :=
  mkState (myPlayerId s) (players s) v (keysPressed s) (viewport s)
    (canvasWidth s) (canvasHeight s) (readyState s).
Definition set_keysPressed v s :=
  mkState (myPlayerId s) (players s) (avatars s) v (viewport s)
    (canvasWidth s) (canvasHeight s) (readyState s).
Definition set_viewport v s :=
  mkState (myPlayerId s) (players s) (avatars s) (keysPressed s) v
    (canvasWidth s) (canvasHeight s) (readyState s).

(** The module-level state when the script has run and the socket opened. *)
Definition init (innerWidth innerHeight : Z) : State :=
  mkState None ∅ ∅
    [("ArrowUp", false); ("ArrowDown", false);
     ("ArrowLeft", false); ("ArrowRight", false)]
    (Viewport.mk (ofZ 0) (ofZ 0)) innerWidth innerHeight Game.OPEN.

(** [!myPlayerId] is false only for a non-empty id. *)
Definition joined (s : State) : bool :=
  match myPlayerId s with
  | Some id => negb (String.eqb id "")
  | None => false
  end.

Definition clampView (pos : num) (view : Z) : num :=
  Math_max (ofZ 0)
    (Math_min (sub pos (Fin (inject_Z view / 2))) (ofZ (2048 - view))).

Definition updateViewport (s : State) : State :=
  if negb (joined s) then s
  else match players s !! default "" (myPlayerId s) with
       | None => s
       | Some player =>
           set_viewport
             (Viewport.mk
                (clampView (ToNumber (player !! "x")) (canvasWidth s))
                (clampView (ToNumber (player !! "y")) (canvasHeight s))) s
       end.

(** The [join_game] case of [ws.onmessage]; a rejection is only logged. *)
Definition onJoinGame (success : bool) (playerId : string)
    (ps : gmap string record) (avs : gmap string Game.Avatar.t) (s : State)
  : State :=
  if success then
    updateViewport
      (set_avatars (avs ∪ avatars s)
        (set_players (ps ∪ players s)
          (set_myPlayerId (Some playerId) s)))
  else s.

(** The [player_joined] case, [id] being [message.player.id]. *)
Definition onPlayerJoined (id : string) (player : record)
    (avatar : option Game.Avatar.t) (s : State) : State :=
  let s1 := set_players (<[id := <["id" := VStr id]> player]> (players s)) s in
  match avatar with
  | Some a => set_avatars (<[Game.Avatar.name a := a]> (avatars s1)) s1
  | None => s1
  end.

(** The [players_moved] case of [ws.onmessage]:
    [Object.assign(players, message.players)] on the table itself. *)
Definition onPlayersMoved (upd : gmap string record) (s : State) : State :=
  let s1 := set_players (upd ∪ players s) s in
  match upd !! default "null" (myPlayerId s1) with
  | Some _ => updateViewport s1
  | None => s1
  end.

Definition onPlayerLeft (id : string) (s : State) : State :=
  set_players (delete id (players s)) s.

Definition sendMoveCommand (direction : string) (s : State)
  : list Game.ClientMessage :=
  match readyState s with
  | Game.OPEN => [Game.MoveDirection direction]
  | _ => []
  end.

Definition sendStopCommand (s : State) : list Game.ClientMessage :=
  match readyState s with
  | Game.OPEN => [Game.Stop]
  | _ => []
  end.

Definition arrowDirection (key : string) : option string :=
  if String.eqb key "ArrowUp" then Some "up"
  else if String.eqb key "ArrowDown" then Some "down"
  else if String.eqb key "ArrowLeft" then Some "left"
  else if String.eqb key "ArrowRight" then Some "right"
  else None.

(** The [keydown] listener: the new state and what is sent. *)
Definition onkeydown (key : string) (s : State)
  : State * list Game.ClientMessage :=
  if negb (joined s) then (s, [])
  else match arrowDirection key with
       | None => (s, [])
       | Some direction =>
           if default false (getKey (keysPressed s) key) then (s, [])
           else let s' := set_keysPressed (setKey (keysPressed s) key true) s in
                (s', sendMoveCommand direction s')
       end.

(** The [keyup] listener. *)
Definition onkeyup (key : string) (s : State)
  : State * list Game.ClientMessage :=
  if negb (joined s) then (s, [])
  else if default false (getKey (keysPressed s) key) then
    let s' := set_keysPressed (setKey (keysPressed s) key false) s in
    match list_find (λ e, e.2 = true) (keysPressed s') with
    | None => (s', sendStopCommand s')
    | Some (_, (k, _)) =>
        (s', sendMoveCommand (replace "arrow" "" (toLowerCase k)) s')
    end
  else (s, []).

End Script.

(** ** Sample data *)

Module Samples.
Import JS.

Definition hero : record :=
  {[ "x" := VNum 2040; "y" := VNum 10; "username" := VStr "hero";
     "avatar" := VStr "knight"; "facing" := VStr "west" ]}.

Definition knight : Game.Avatar.t :=
  Game.Avatar.mk "knight" (Some {[ "east" := ["e0"; "e1"] ]}) None.

Definition ann : record :=
  {[ "x" := VNum 300; "y" := VNum 400; "username" := VStr "ann" ]}.

Definition welcome : Game.ServerMessage :=
  Game.join_game true "p1" {[ "p1" := hero; "p2" := ann ]}
    {[ "knight" := knight ]} None.

(** Joined as "p1" in an 800 by 600 window, the backdrop not yet loaded. *)
Definition joined : Game.GameClient :=
  (Game.run [Game.WsOpen; Game.WsMessage welcome] (Game.init 800 600)).1.

(** A player on frame 5 of its walk, facing west. *)
Definition walker : record := <["animationFrame" := VNum 5]> hero.

(** The same avatar as debug_game.js holds it after [preloadAvatar]. *)
Definition debugKnight : DebugGame.Avatar.t :=
  DebugGame.Avatar.mk "knight" {[ "east" := ["e0"; "e1"] ]}
    (Some {[ 0 := Game.Image.mk "e0" true; 1 := Game.Image.mk "e1" true ]}).

(** The second client, joined as "p1" next to a player "p2". *)
Definition scriptJoined : Script.State :=
  Script.onJoinGame true "p1" {[ "p1" := hero; "p2" := ann ]}
    {[ "knight" := knight ]} (Script.init 800 600).

End Samples.

(** ** game.js: the rest of the render path *)

Module Canvas.
Import JS Game.

(** The arguments of the [drawImage] call of [drawWorldMap]: the source
    rectangle in the world image and where it lands on the canvas. *)
Module Blit.
Record t : Type := mk {
    sx : num; sy : num; sw : num; sh : num; dx : num; dy : num }.
End Blit.

Definition drawWorldMap (s : GameClient) : Blit.t :=
  let c := camera s in
  let sx := Math_max (ofZ 0) (Camera.x c) in
  let sy := Math_max (ofZ 0) (Camera.y c) in
  let sw := Math_min (ofZ (Camera.width c)) (sub (ofZ (worldWidth s)) sx) in
  let sh := Math_min (ofZ (Camera.height c)) (sub (ofZ (worldHeight s)) sy) in
  Blit.mk sx sy sw sh (sub sx (Camera.x c)) (sub sy (Camera.y c)).

(** [draw]: the backdrop, then the players. *)
Definition draw (s : GameClient) : Blit.t * list Sprite.t :=
  (drawWorldMap s, drawPlayers s).

End Canvas.

(** ** game.js: what the reachable states have in common *)

Module Shape.
Import JS Game.

(** Every stored object was delivered by a message already counted. *)
Definition heap_fresh (s : GameClient) : Prop :=
  ∀ l : loc, is_Some (heap s !! l) → l.1 < received s.

(** The camera [centerCameraOnPlayer] computes for the record at [l]. *)
Definition centredOn (s : GameClient) (l : loc) : Camera.t :=
  Camera.mk
    (clampAxis (ToNumber (deref s l !! "x")) (Camera.width (camera s))
       (worldWidth s))
    (clampAxis (ToNumber (deref s l !! "y")) (Camera.height (camera s))
       (worldHeight s))
    (Camera.width (camera s)) (Camera.height (camera s)).

(** Once the backdrop is loaded the camera follows the local actor. *)
Definition tracking (s : GameClient) : Prop :=
  ∀ l, worldImageLoaded s = true → myPlayer s = Some l →
       camera s = centredOn s l.

(** A coordinate that is [NaN] or a whole number, not negative. *)
Definition onGrid (a : num) : Prop :=
  a = NaN ∨ ∃ z : Z, (0 ≤ z)%Z ∧ a = ofZ z.

(** Keyboard, focus and pointer events. *)
Definition isInput (e : Event) : bool :=
  match e with
  | KeyDown _ | KeyUp _ | Blur | Click _ _ => true
  | _ => false
  end.

(** What a frame shows: the table, the records, the avatars, the camera. *)
Definition sameView (s s' : GameClient) : Prop :=
  players s' = players s ∧ heap s' = heap s ∧ avatars s' = avatars s
  ∧ camera s' = camera s.

(** The value of field [k] of actor [id] after a run of updates that
    started from [v0]: the last update that supplies the field decides. *)
Definition lastWrite (upds : list (gmap string record)) (id k : string)
    (v0 : option value) : option value :=
  foldl (λ v u, match u !! id ≫= (.!! k) with
                | Some w => Some w
                | None => v
                end) v0 upds.

End Shape.

(** ** debug_game.js: its camera *)

Module DebugCamera.
Import JS Game.

(** One axis of [centerCameraOnPlayer] in debug_game.js: centered, then
    clamped, not rounded. *)
Definition centerAxis (pos : num) (view world : Z) : num :=
  Math_max (ofZ 0)
    (Math_min (sub pos (Fin (inject_Z view / 2))) (ofZ (world - view))).

Definition centerCameraOnPlayer : handler := λ s,
  match myPlayer s with
  | None => (s, [])
  | Some l =>
      let p := deref s l in
      let c := camera s in
      let c' := Camera.mk
        (centerAxis (ToNumber (p !! "x")) (Camera.width c) (worldWidth s))
        (centerAxis (ToNumber (p !! "y")) (Camera.height c) (worldHeight s))
        (Camera.width c) (Camera.height c) in
      (set_needsRedraw true (set_camera c' s), [Centered])
  end.

End DebugCamera.

(** ** script.js: what the second client's key table holds *)

Module ScriptKeys.
Import JS.

(** The keys of the literal [keysPressed], in the order [Object.entries]
    enumerates them. *)
Definition arrows : list string :=
  ["ArrowUp"; "ArrowDown"; "ArrowLeft"; "ArrowRight"].

(** [keysPressed[key]] as a condition. *)
Definition held (s : Script.State) (key : string) : bool :=
  default false (Script.getKey (Script.keysPressed s) key).

(** The direction of the first held key in enumeration order. *)
Definition firstHeld (s : Script.State) : option string :=
  list_find (λ k, held s k = true) arrows ≫= (λ r, Script.arrowDirection r.2).

End ScriptKeys.

(** ** script.js: the first client (lines 1-457)

    The avatar caches ([allAvatars], [avatarImages], [playerAvatar]) and the
    canvas calls are left out; [loadAvatarImages] is kept only as far as it
    can throw and end the handler that called it. *)

Module Script1.
Import JS.

Definition WORLD_SIZE : Z := 2048.

Module Position.
Record t : Type := mk { x : option value; y : option value }.
End Position.

Module Offset.
Record t : Type := mk { x : num; y : num }.
End Offset.

Record State : Type := mkState {
  playerId : option string;
  playerPosition : Position.t;
  viewportOffset : Offset.t;
  canvasWidth : Z;
  canvasHeight : Z;
  readyState : Game.ReadyState;
  keysPressed : gset string;
  isMoving : bool;
  otherPlayers : gmap string record;
  animationFrame : nat;
  (** whether [animationInterval] holds a timer *)
  animationInterval : bool }.

Definition set_playerId v s :=
  mkState v (playerPosition s) (viewportOffset s) (canvasWidth s)
    (canvasHeight s) (readyState s) (keysPressed s) (isMoving s)
    (otherPlayers s) (animationFrame s) (animationInterval s).
Definition set_playerPosition v s :=
  mkState (playerId s) v (viewportOffset s) (canvasWidth s)
    (canvasHeight s) (readyState s) (keysPressed s) (isMoving s)
    (otherPlayers s) (animationFrame s) (animationInterval s).
Definition set_viewportOffset v s :=
  mkState (playerId s) (playerPosition s) v (canvasWidth s)
    (canvasHeight s) (readyState s) (keysPressed s) (isMoving s)
    (otherPlayers s) (animationFrame s) (animationInterval s).
Definition set_canvas w h s :=
  mkState (playerId s) (playerPosition s) (viewportOffset s) w h
    (readyState s) (keysPressed s) (isMoving s)
    (otherPlayers s) (animationFrame s) (animationInterval s).
Definition set_readyState v s :=
  mkState (playerId s) (playerPosition s) (viewportOffset s) (canvasWidth s)
    (canvasHeight s) v (keysPressed s) (isMoving s)
    (otherPlayers s) (animationFrame s) (animationInterval s).
Definition set_keysPressed v s :=
  mkState (playerId s) (playerPosition s) (viewportOffset s) (canvasWidth s)
    (canvasHeight s) (readyState s) v (isMoving s)
    (otherPlayers s) (animationFrame s) (animationInterval s).
Definition set_isMoving v s :=
  mkState (playerId s) (playerPosition s) (viewportOffset s) (canvasWidth s)
    (canvasHeight s) (readyState s) (keysPressed s) v
    (otherPlayers s) (animationFrame s) (animationInterval s).
Definition set_otherPlayers v s :=
  mkState (playerId s) (playerPosition s) (viewportOffset s) (canvasWidth s)
    (canvasHeight s) (readyState s) (keysPressed s) (isMoving s)
    v (animationFrame s) (animationInterval s).
Definition set_animationFrame v s :=
  mkState (playerId s) (playerPosition s) (viewportOffset s) (canvasWidth s)
    (canvasHeight s) (readyState s) (keysPressed s) (isMoving s)
    (otherPlayers s) v (animationInterval s).
Definition set_animationInterval v s :=
  mkState (playerId s) (playerPosition s) (viewportOffset s) (canvasWidth s)
    (canvasHeight s) (readyState s) (keysPressed s) (isMoving s)
    (otherPlayers s) (animationFrame s) v.

(** *** Viewport *)

(** One axis of [updateViewport]: centered, then clamped to the world. *)
Definition clampOffset (pos : num) (size : Z) : num :=
  Math_max (ofZ 0)
    (Math_min (sub pos (Fin (inject_Z size / 2))) (ofZ (WORLD_SIZE - size))).

Definition updateViewport (s : State) : State :=
  set_viewportOffset
    (Offset.mk
       (clampOffset (ToNumber (Position.x (playerPosition s))) (canvasWidth s))
       (clampOffset (ToNumber (Position.y (playerPosition s))) (canvasHeight s)))
    s.

Definition resizeCanvas (innerWidth innerHeight : Z) (s : State) : State :=
  updateViewport (set_canvas innerWidth innerHeight s).

(** *** Animation *)

Definition startAnimation (s : State) : State :=
  if animationInterval s then s else set_animationInterval true s.

Definition stopAnimation (s : State) : State :=
  if animationInterval s then set_animationInterval false s else s.

(** The callback of [setInterval]; a cleared timer does not fire. *)
Definition ontick (s : State) : State :=
  if animationInterval s
  then set_animationFrame ((animationFrame s + 1) mod 3) s
  else s.

(** *** Messages *)

(** [loadAvatarImages] returns only if the avatar has frames for north,
    south and east; otherwise [frames[direction].forEach] throws. *)
Definition loadable (a : Game.Avatar.t) : bool :=
  match Game.Avatar.frames a with
  | Some fr =>
      bool_decide (is_Some (fr !! "north"))
      && bool_decide (is_Some (fr !! "south"))
      && bool_decide (is_Some (fr !! "east"))
  | None => false
  end.

(** The [join_game] case. An avatar that cannot be loaded ends the handler
    after [playerId] is set: the players are not stored. *)
Definition onJoinGame (success : bool) (pid : string)
    (ps : gmap string record) (avs : gmap string Game.Avatar.t) (s : State)
  : State :=
  if success then
    let s1 := set_playerId (Some pid) s in
    if bool_decide (map_Forall (λ _ a, loadable a = true) avs) then
      let s2 := set_otherPlayers (delete pid ps ∪ otherPlayers s1) s1 in
      match ps !! pid with
      | Some ourPlayer =>
          updateViewport
            (set_playerPosition
               (Position.mk (ourPlayer !! "x") (ourPlayer !! "y")) s2)
      | None => s2
      end
    else s1
  else s.

(** The [players_moved] case: the own entry moves the viewport and drives
    the animation, every other entry replaces that player's record. *)
Definition onPlayersMoved (upd : gmap string record) (s : State) : State :=
  let others := match playerId s with
                | Some pid => delete pid upd
                | None => upd
                end in
  let s1 := set_otherPlayers (others ∪ otherPlayers s) s in
  match playerId s ≫= (upd !!.) with
  | Some playerData =>
      let s2 := updateViewport
        (set_playerPosition
           (Position.mk (playerData !! "x") (playerData !! "y")) s1) in
      if truthy (playerData !! "isMoving") then startAnimation s2
      else set_animationFrame 0 (stopAnimation s2)
  | None => s1
  end.

(** The [player_joined] case, [id] being [message.player.id]. *)
Definition onPlayerJoined (id : string) (player : record)
    (avatar : option Game.Avatar.t) (s : State) : State :=
  match avatar with
  | Some _ =>
      set_otherPlayers (<[id := <["id" := VStr id]> player]> (otherPlayers s)) s
  | None => s
  end.

(** The [player_left] case; an empty id is falsy. *)
Definition onPlayerLeft (id : string) (s : State) : State :=
  if String.eqb id "" then s
  else set_otherPlayers (delete id (otherPlayers s)) s.

(** *** Input *)

(** The [if]/[else if] chain of [sendMoveCommand]. *)
Definition direction (s : State) : option string :=
  if bool_decide ("ArrowUp" ∈ keysPressed s) then Some "up"
  else if bool_decide ("ArrowDown" ∈ keysPressed s) then Some "down"
  else if bool_decide ("ArrowLeft" ∈ keysPressed s) then Some "left"
  else if bool_decide ("ArrowRight" ∈ keysPressed s) then Some "right"
  else None.

Definition sendMoveCommand (s : State) : State * list Game.ClientMessage :=
  match readyState s with
  | Game.OPEN =>
      match direction s with
      | Some d =>
          if isMoving s then (s, [])
          else (set_isMoving true s, [Game.MoveDirection d])
      | None => (s, [])
      end
  | _ => (s, [])
  end.

Definition sendStopCommand (s : State) : State * list Game.ClientMessage :=
  match readyState s with
  | Game.OPEN =>
      if isMoving s then (set_isMoving false s, [Game.Stop]) else (s, [])
  | _ => (s, [])
  end.

Definition handleKeyDown (code : string) (s : State)
  : State * list Game.ClientMessage :=
  if String.prefix "Arrow" code
  then sendMoveCommand (set_keysPressed ({[code]} ∪ keysPressed s) s)
  else (s, []).

Definition handleKeyUp (code : string) (s : State)
  : State * list Game.ClientMessage :=
  if String.prefix "Arrow" code then
    let s1 := set_keysPressed (keysPressed s ∖ {[code]}) s in
    if bool_decide (keysPressed s1 = ∅) then sendStopCommand s1 else (s1, [])
  else (s, []).

(** *** Connection *)

(** [ws.onopen]; the socket is in state [OPEN] when it runs. *)
Definition onopen (s : State) : State * list Game.ClientMessage :=
  (set_readyState Game.OPEN s, [Game.JoinGame "Dylan"]).

(** [ws.onclose] only logs; the socket is in state [CLOSED] when it runs. *)
Definition onclose (s : State) : State :=
  set_readyState Game.CLOSED s.

(** *** The event loop *)

Inductive Event : Type :=
| Resize (innerWidth innerHeight : Z)
| Tick
| WsOpen
| WsClose
| JoinGame (success : bool) (playerId : string)
    (players : gmap string record) (avatars : gmap string Game.Avatar.t)
| PlayersMoved (players : gmap string record)
| PlayerJoined (id : string) (player : record)
    (avatar : option Game.Avatar.t)
| PlayerLeft (playerId : string)
| KeyDown (code : string)
| KeyUp (code : string).

Definition step (e : Event) (s : State) : State * list Game.ClientMessage :=
  match e with
  | Resize w h => (resizeCanvas w h s, [])
  | Tick => (ontick s, [])
  | WsOpen => onopen s
  | WsClose => (onclose s, [])
  | JoinGame success pid ps avs => (onJoinGame success pid ps avs s, [])
  | PlayersMoved upd => (onPlayersMoved upd s, [])
  | PlayerJoined id player avatar => (onPlayerJoined id player avatar s, [])
  | PlayerLeft id => (onPlayerLeft id s, [])
  | KeyDown code => handleKeyDown code s
  | KeyUp code => handleKeyUp code s
  end.

(** The state when the script has run in a window of the given size and
    the page's [load] listener has connected and installed the key
    listeners. *)
Definition init (innerWidth innerHeight : Z) : State :=
  resizeCanvas innerWidth innerHeight
    (mkState None (Position.mk (Some (VNum 0)) (Some (VNum 0)))
       (Offset.mk (ofZ 0) (ofZ 0)) 0 0 Game.CONNECTING ∅ false ∅ 0 false).

Fixpoint run (es : list Event) (s : State)
  : State * list Game.ClientMessage :=
  match es with
  | [] => (s, [])
  | e :: es' =>
      let r := step e s in
      let r' := run es' r.1 in
      (r'.1, r.2 ++ r'.2)
  end.

Inductive reachable : State → Prop :=
| reach_init w h : reachable (init w h)
| reach_step e s : reachable s → reachable (step e s).1.

(** Move and stop commands take turns, given whether the last one sent was
    a move; a join message may come anywhere. *)
Fixpoint alternating (moving : bool) (ms : list Game.ClientMessage) : bool :=
  match ms with
  | [] => true
  | Game.MoveDirection _ :: ms' => negb moving && alternating true ms'
  | Game.Stop :: ms' => moving && alternating false ms'
  | Game.JoinGame _ :: ms' => alternating moving ms'
  | Game.MoveTo _ _ :: _ => false
  end.

End Script1.

(** ** Keys that are read through the prototype chain

    The finite maps of [Game] hold the own properties of the objects the
    code uses as dictionaries. For a key that names a property of
    [Object.prototype] the code does not read or write an own property:
    [o["constructor"]] is the inherited function when [o] has no such entry,
    and [o["__proto__"] = v] replaces the prototype of [o]. The maps say
    nothing about these keys. [Wire] singles out the messages that use none
    of them, and the states reached through such messages only. *)

Module Wire.
Import JS Game.

(** The property names of [Object.prototype]. *)
Definition Object_prototype : list string :=
  ["constructor"; "__defineGetter__"; "__defineSetter__"; "hasOwnProperty";
   "__lookupGetter__"; "__lookupSetter__"; "isPrototypeOf";
   "propertyIsEnumerable"; "toString"; "valueOf"; "__proto__";
   "toLocaleString"].

Definition ordinary (k : string) : bool :=
  bool_decide (k ∉ Object_prototype).

Definition ordinaryKeys {A} (m : gmap string A) : bool :=
  bool_decide (map_Forall (λ k _, ordinary k = true) m).

(** A [players] object: ordinary ids, and ordinary field names in each
    record. *)
Definition plainPlayers (ps : gmap string record) : bool :=
  ordinaryKeys ps
  && bool_decide (map_Forall (λ _ r, ordinaryKeys r = true) ps).

(** An avatar: ordinary name and ordinary directions. *)
Definition plainAvatar (a : Avatar.t) : bool :=
  ordinary (Avatar.name a)
  && match Avatar.frames a with
     | Some fr => ordinaryKeys fr
     | None => true
     end.

Definition plainMessage (m : ServerMessage) : bool :=
  match m with
  | join_game success pid ps avs _ =>
      negb success
      || (ordinary pid && plainPlayers ps && ordinaryKeys avs
          && bool_decide (map_Forall (λ _ a, plainAvatar a = true) avs))
  | player_joined id player avatar =>
      ordinary id && ordinaryKeys player && plainAvatar avatar
  | players_moved upd => plainPlayers upd
  | player_left id => ordinary id
  | other_action => true
  end.

Definition plain (e : Event) : bool :=
  match e with
  | WsMessage m => plainMessage m
  | _ => true
  end.

(** The states the client reaches when every message so far was plain. *)
Inductive clean : GameClient → Prop :=
| clean_init w h : clean (init w h)
| clean_step e s : plain e = true → clean s → clean (step e s).1.

(** The message puts an entry for [id] into the table. *)
Definition adds (id : string) (e : Event) : bool :=
  match e with
  | WsMessage (join_game true _ ps _ _) => bool_decide (is_Some (ps !! id))
  | WsMessage (player_joined id' _ _) => String.eqb id' id
  | _ => false
  end.

(** The avatar after the browser has decoded the images [ds], each given by
    its direction and index, in that order. *)
Definition decodings (ds : list (string * nat)) (a : Avatar.t) : Avatar.t :=
  foldl (λ a d, decoded d.1 d.2 a) a ds.

End Wire.

(** ** game.js: a [WebSocket] constructor that throws

    [connectToServer] catches an exception of [new WebSocket(...)], reports
    it and calls [attemptReconnect]; [this.ws] keeps its value. The events
    of [Game] have the constructor succeed; [Connect] adds the other
    outcome, at start-up and in the retry timer's callback. *)

Module Connect.
Import JS Game.

(** The [catch] branch of [connectToServer]. *)
Definition connectionFailed : handler :=
  emit (ConsoleError "Failed to connect to server:" None) ;;
  attemptReconnect.

Inductive Event : Type :=
| Usual (e : Game.Event)
| TimeoutThrows.

Definition step (e : Event) : handler :=
  match e with
  | Usual e => Game.step e
  | TimeoutThrows => connectionFailed
  end.

(** The client after its constructor and [init] when the first
    [new WebSocket(...)] threw: [ws] is still [null]. *)
Definition initThrown (innerWidth innerHeight : Z) : GameClient :=
  (connectionFailed (set_ws None (Game.init innerWidth innerHeight))).1.

Inductive reachable : GameClient → Prop :=
| reach_init w h : reachable (Game.init w h)
| reach_initThrown w h : reachable (initThrown w h)
| reach_step e s : reachable s → reachable (step e s).1.

End Connect.

(** * Properties *)

Import JS Game.

(** ** Camera bounds *)

Lemma Qfloor_half_bounds (v : Q) (b : Z) :
  (0 <= v)%Q → (v <= inject_Z b)%Q →
  (0 ≤ Qfloor (v + (1 # 2)) ≤ b)%Z.
Proof.
  intros H0 Hb. split.
  - change 0%Z with (Qfloor (inject_Z 0)) at 1 || rewrite <- (Qfloor_Z 0).
    apply Qfloor_resp_le. change (inject_Z 0) with 0%Q. lra.
  - assert (Hlt : (inject_Z (Qfloor (v + (1 # 2))) < inject_Z (b + 1))%Q).
    { apply Qle_lt_trans with (v + (1 # 2))%Q; [apply Qfloor_le|].
      rewrite inject_Z_plus. change (inject_Z 1) with 1%Q. lra. }
    rewrite <- Zlt_Qlt in Hlt. lia.
Qed.

Lemma clamp_value_bounds (ideal : Q) (d : Z) :
  let m := if Qle_bool ideal (inject_Z d) then ideal else inject_Z d in
  let v := if Qle_bool (inject_Z 0) m then m else inject_Z 0 in
  (0 <= v)%Q ∧ (v <= inject_Z (Z.max 0 d))%Q.
Proof.
  intros m v. subst m v.
  assert (Hd : (inject_Z d <= inject_Z (Z.max 0 d))%Q)
    by (rewrite <- Zle_Qle; lia).
  assert (H0 : (0 <= inject_Z (Z.max 0 d))%Q)
    by (change 0%Q with (inject_Z 0); rewrite <- Zle_Qle; lia).
  change (inject_Z 0) with 0%Q.
  destruct (Qle_bool ideal (inject_Z d)) eqn:E1.
  - apply Qle_bool_iff in E1.
    destruct (Qle_bool 0 ideal) eqn:E2.
    + apply Qle_bool_iff in E2. split; lra.
    + split; lra.
  - destruct (Qle_bool 0 (inject_Z d)) eqn:E2.
    + apply Qle_bool_iff in E2. split; lra.
    + split; lra.
Qed.

Lemma clampAxis_bounds (p : Q) (view world : Z) :
  ∃ z : Z, clampAxis (Fin p) view world = ofZ z
           ∧ (0 ≤ z ≤ Z.max 0 (world - view))%Z.
Proof.
  unfold clampAxis, sub, Math_min, Math_max, Math_round, ofZ.
  eexists. split; [reflexivity|].
  destruct (clamp_value_bounds (p - inject_Z view / 2) (world - view))
    as [H0 Hb].
  apply Qfloor_half_bounds; assumption.
Qed.

(** C1. For every position of the local actor and every viewport size, the
    camera left by [centerCameraOnPlayer] has integer coordinates with
    [0 <= x <= max 0 (worldWidth - width)] and
    [0 <= y <= max 0 (worldHeight - height)]; on an axis where the viewport
    is larger than the world the coordinate is 0. *)
Theorem centered_camera_within_world (s : GameClient) (l : loc) (p : record)
    (px py : Q) :
  myPlayer s = Some l →
  heap s !! l = Some p →
  p !! "x" = Some (VNum px) →
  p !! "y" = Some (VNum py) →
  let c := camera s in
  let c' := camera (centerCameraOnPlayer s).1 in
  ∃ cx cy : Z,
    Camera.x c' = ofZ cx ∧ Camera.y c' = ofZ cy
    ∧ (0 ≤ cx ≤ Z.max 0 (worldWidth s - Camera.width c))%Z
    ∧ (0 ≤ cy ≤ Z.max 0 (worldHeight s - Camera.height c))%Z
    ∧ (worldWidth s < Camera.width c → cx = 0)%Z
    ∧ (worldHeight s < Camera.height c → cy = 0)%Z.
Proof.
  intros Hme Hl Hx Hy c c'. subst c c'.
  unfold centerCameraOnPlayer. rewrite Hme. cbn [fst camera set_needsRedraw set_camera Camera.x Camera.y].
  unfold deref. rewrite Hl. cbn [default from_option id]. rewrite Hx, Hy. cbn [ToNumber].
  destruct (clampAxis_bounds px (Camera.width (camera s)) (worldWidth s))
    as (cx & -> & Hcx).
  destruct (clampAxis_bounds py (Camera.height (camera s)) (worldHeight s))
    as (cy & -> & Hcy).
  exists cx, cy. repeat split; try tauto; lia.
Qed.

Lemma centered_camera_within_world_witness :
  ∃ cx cy : Z,
    Camera.x (camera (centerCameraOnPlayer Samples.joined).1) = ofZ cx
    ∧ Camera.y (camera (centerCameraOnPlayer Samples.joined).1) = ofZ cy
    ∧ (0 ≤ cx ≤ 1248)%Z ∧ (0 ≤ cy ≤ 1448)%Z.
Proof.
  destruct (centered_camera_within_world Samples.joined (0%nat, "p1")
              Samples.hero 2040 10)
    as (cx & cy & Hx & Hy & Hcx & Hcy & _); [vm_compute; reflexivity ..|].
  exists cx, cy. repeat split; first [assumption | apply Hcx | apply Hcy].
Defined.

(** C8. World 2048 by 2048, viewport 800 by 600, local actor at (2040, 10):
    centering leaves the camera at exactly (1248, 0). *)
Theorem center_at_2040_10 (s : GameClient) (l : loc) (p : record) :
  worldWidth s = 2048%Z → worldHeight s = 2048%Z →
  Camera.width (camera s) = 800%Z → Camera.height (camera s) = 600%Z →
  myPlayer s = Some l → heap s !! l = Some p →
  p !! "x" = Some (VNum 2040) → p !! "y" = Some (VNum 10) →
  camera (centerCameraOnPlayer s).1 = Camera.mk (ofZ 1248) (ofZ 0) 800 600.
Proof.
  intros HW HH Hw Hh Hme Hl Hx Hy.
  unfold centerCameraOnPlayer. rewrite Hme.
  cbn [fst camera set_needsRedraw set_camera].
  unfold deref. rewrite Hl. cbn [default from_option id].
  rewrite Hx, Hy, HW, HH, Hw, Hh. reflexivity.
Qed.

Lemma center_at_2040_10_witness :
  camera (centerCameraOnPlayer Samples.joined).1
  = Camera.mk (ofZ 1248) (ofZ 0) 800 600.
Proof.
  apply (center_at_2040_10 Samples.joined (0%nat, "p1") Samples.hero);
    vm_compute; reflexivity.
Defined.

(** ** Join rejection *)

(** C9. A join response with [success = false] leaves every field of the
    client as it was (no actor, no asset, no local reference) and reports
    the reason given by the server; as an event it only counts as one more
    message received. *)
Theorem join_rejected_state_untouched (n : nat) (pid : string)
    (ps : gmap string record) (avs : gmap string Avatar.t)
    (err : option string) (s : GameClient) :
  handleServerMessage n (join_game false pid ps avs err) s
    = (s, [ConsoleError "Join game failed:" err])
  ∧ step (WsMessage (join_game false pid ps avs err)) s
    = (set_received (S (received s)) s,
       [ConsoleError "Join game failed:" err]).
Proof. split; reflexivity. Qed.

(** ** Reconnection *)




(** Unfolding a handler down to the fields it reads and writes. *)
Ltac unfold_handlers :=
  unfold step, onresize, onload, onopen, onclose, onmessage, onbadmessage,
    connectToServer, onframe, onkeydown, onkeyup, onblur, onclick, ondecoded,
    handleServerMessage, handleJoinGameSuccess, handlePlayerJoined,
    handlePlayersMoved, handlePlayerLeft, checkAndCenterCamera,
    centerCameraOnPlayer, attemptReconnect, joinGame, preloadAvatars,
    sendMoveCommand, sendStopCommand, when, andThen, modify, emit, skip in *.

Ltac fields :=
  cbn [fst snd app worldWidth worldHeight playerId players avatars myPlayer
       camera ws reconnectAttempts maxReconnectAttempts needsRedraw
       worldImageLoaded playerDataReceived heap received
       set_playerId set_players set_avatars set_myPlayer set_camera set_ws
       set_reconnectAttempts set_needsRedraw set_worldImageLoaded
       set_playerDataReceived set_heap set_received
       Camera.x Camera.y Camera.width Camera.height] in *.

Ltac by_cases_on_handler :=
  unfold_handlers; fields; repeat (case_match; fields); try done.

Lemma reachable_constants (s : GameClient) :
  reachable s →
  maxReconnectAttempts s = 5 ∧ worldWidth s = 2048%Z ∧ worldHeight s = 2048%Z.
Proof.
  induction 1 as [w h|e s Hs IH]; [done|].
  destruct e; by_cases_on_handler.
Qed.





(** ** The store of player objects *)

Lemma snapshotTable_lookup (n : nat) (ps : gmap string record) (id : string) :
  snapshotTable n ps !! id = (λ _, (n, id)) <$> ps !! id.
Proof.
  unfold snapshotTable. rewrite map_lookup_imap. by destruct (ps !! id).
Qed.

Lemma snapshotObjects_lookup (n : nat) (ps : gmap string record)
    (id : string) :
  snapshotObjects n ps !! (n, id) = ps !! id.
Proof. unfold snapshotObjects. apply (lookup_kmap (pair n)). Qed.

Lemma mergeMoved_lookup (table : gmap string loc) (upd : gmap string record)
    (h : gmap loc record) :
  (∀ id l, table !! id = Some l → l.2 = id) →
  ∀ l : loc,
    mergeMoved table upd h !! l
    = match upd !! l.2 with
      | Some u => if decide (table !! l.2 = Some l)
                  then (λ r, Object_assign r u) <$> h !! l else h !! l
      | None => h !! l
      end.
Proof.
  intros Hkeyed. unfold mergeMoved.
  apply (map_fold_weak_ind (λ (r : gmap loc record) (m : gmap string record),
    ∀ l : loc, r !! l = match m !! l.2 with
      | Some u => if decide (table !! l.2 = Some l)
                  then (λ r, Object_assign r u) <$> h !! l else h !! l
      | None => h !! l
      end)).
  - intros l. by rewrite lookup_empty.
  - intros i u m r Hi IH l.
    destruct (table !! i) as [l0|] eqn:Hti.
    + pose proof (Hkeyed _ _ Hti) as Hl0.
      destruct (decide (l0 = l)) as [->|Hne].
      * rewrite lookup_alter_eq, IH, Hl0, Hi, lookup_insert_eq.
        by rewrite decide_True.
      * rewrite lookup_alter_ne by done. rewrite IH.
        destruct (decide (i = l.2)) as [->|Hik].
        -- rewrite Hi, lookup_insert_eq.
           rewrite decide_False by congruence. done.
        -- by rewrite lookup_insert_ne.
    + rewrite IH. destruct (decide (i = l.2)) as [->|Hik].
      * rewrite Hi, lookup_insert_eq.
        rewrite decide_False by congruence. done.
      * by rewrite lookup_insert_ne.
Qed.

Lemma mergeMoved_is_Some (table : gmap string loc) (upd : gmap string record)
    (h : gmap loc record) (l : loc) :
  is_Some (h !! l) → is_Some (mergeMoved table upd h !! l).
Proof.
  unfold mergeMoved.
  apply (map_fold_weak_ind (λ (r : gmap loc record) (m : gmap string record),
    is_Some (h !! l) → is_Some (r !! l))); [done|].
  intros i u m r _ IH Hl. destruct (table !! i); [|auto].
  apply lookup_alter_is_Some. auto.
Qed.

Lemma reachable_wf (s : GameClient) : reachable s → wf s.
Proof.
  induction 1 as [w h|e s Hs Hwf].
  - split_and!.
    + intros id l Hl. cbn in Hl. by rewrite lookup_empty in Hl.
    + intros l Hl. discriminate Hl.
    + intros [l Hl]. discriminate Hl.
    + intros id l Hl. cbn in Hl. by rewrite lookup_empty in Hl.
    + intros l Hl. discriminate Hl.
  - unfold wf, table_keyed, self_keyed, self_after_join, table_allocated,
      self_allocated.
    destruct e; by_cases_on_handler.
    all: destruct Hwf as (IHt & IHs & IHj & IHa & IHb).
    all: unfold table_keyed, self_keyed, self_after_join, table_allocated,
           self_allocated in *.
    all: split_and!; intros.
    all: repeat match goal with
         | H : snapshotTable _ _ !! _ = Some _ |- _ =>
             rewrite snapshotTable_lookup in H;
             apply fmap_Some in H as (? & ? & ?)
         | H : <[_:=_]> _ !! _ = Some _ |- _ =>
             apply lookup_insert_Some in H as [[? ?]|[? ?]]
         | H : delete _ _ !! _ = Some _ |- _ =>
             apply lookup_delete_Some in H as [? ?]
         end; simplify_eq; eauto.
    all: repeat match goal with
         | |- is_Some (alter _ _ _ !! _) => apply lookup_alter_is_Some
         | |- is_Some (mergeMoved _ _ _ !! _) => apply mergeMoved_is_Some
         | |- is_Some (<[_:=_]> _ !! _) => apply lookup_insert_is_Some'
         | |- is_Some ((_ ∪ _) !! _) => apply lookup_union_is_Some
         end; eauto.
    all: left; rewrite snapshotObjects_lookup; eauto.
Qed.

Lemma Object_assign_twice (r u : record) :
  Object_assign (Object_assign r u) u = Object_assign r u.
Proof.
  unfold Object_assign. by rewrite (assoc_L (∪)), (idemp_L (∪)).
Qed.

(** What [handlePlayersMoved] leaves alone. *)
Lemma handlePlayersMoved_frame (upd : gmap string record) (s : GameClient) :
  let s' := (handlePlayersMoved upd s).1 in
  players s' = players s ∧ myPlayer s' = myPlayer s
  ∧ playerId s' = playerId s ∧ avatars s' = avatars s
  ∧ received s' = received s.
Proof. by_cases_on_handler. Qed.

(** The store after [handlePlayersMoved]: exactly the referenced objects
    named by the update are merged, once. *)
Lemma handlePlayersMoved_heap (upd : gmap string record) (s : GameClient)
    (l : loc) :
  wf s →
  heap (handlePlayersMoved upd s).1 !! l
  = match upd !! l.2 with
    | Some u => if decide (referenced s l)
                then (λ r, Object_assign r u) <$> heap s !! l
                else heap s !! l
    | None => heap s !! l
    end.
Proof.
  intros (Ht & Hs & _ & _ & _).
  pose proof (mergeMoved_lookup (players s) upd (heap s) Ht l) as Hm.
  unfold referenced. unfold_handlers. fields.
  destruct (myPlayer s) as [lm|] eqn:Hme; fields.
  - unfold playerKey. fields. rewrite (Hs lm Hme). cbn [default from_option id].
    destruct (upd !! lm.2) as [um|] eqn:Hum; fields.
    + destruct (decide (lm = l)) as [->|Hne].
      * rewrite lookup_alter_eq, Hm, Hum.
        rewrite (decide_True (P := _ ∨ _)) by (by right).
        case_decide; [|done].
        rewrite <- option_fmap_compose. apply option_fmap_ext.
        intros r. apply Object_assign_twice.
      * rewrite lookup_alter_ne by done. rewrite Hm.
        destruct (upd !! l.2); [|done].
        repeat case_decide; naive_solver.
    + rewrite Hm. destruct (upd !! l.2) eqn:Hul; [|done].
      repeat case_decide; try done; naive_solver.
  - rewrite Hm. destruct (upd !! l.2); [|done].
    repeat case_decide; naive_solver.
Qed.

Lemma moved_step_fields (u : gmap string record) (s : GameClient) :
  let s' := (step (WsMessage (players_moved u)) s).1 in
  players s' = players s ∧ myPlayer s' = myPlayer s
  ∧ playerId s' = playerId s
  ∧ heap s' = heap (handlePlayersMoved u s).1.
Proof. by_cases_on_handler. Qed.

(** One update: a referenced record named by the update becomes the merge
    of the update into it, any other record stays. *)
Lemma moved_record (upd : gmap string record) (s : GameClient) (l : loc) :
  wf s → referenced s l → is_Some (heap s !! l) →
  deref (handlePlayersMoved upd s).1 l
  = match upd !! l.2 with
    | Some u => Object_assign (deref s l) u
    | None => deref s l
    end.
Proof.
  intros Hwf Href [r Hr]. unfold deref.
  rewrite (handlePlayersMoved_heap upd s l Hwf), Hr.
  destruct (upd !! l.2); [|done]. by rewrite decide_True.
Qed.

Lemma script_updateViewport_players (t : Script.State) :
  Script.players (Script.updateViewport t) = Script.players t.
Proof.
  unfold Script.updateViewport.
  destruct (negb _); [done|]. by destruct (_ !! _).
Qed.

Lemma script_moved_assigns (t : Script.State) (upd : gmap string record)
    (id : string) (r : record) :
  upd !! id = Some r →
  Script.players (Script.onPlayersMoved upd t) !! id = Some r.
Proof.
  intros Hr. unfold Script.onPlayersMoved.
  cbn [Script.myPlayerId Script.set_players].
  destruct (upd !! default "null" (Script.myPlayerId t));
    rewrite ?script_updateViewport_players;
    cbn [Script.players Script.set_players];
    by apply lookup_union_Some_l.
Qed.

Lemma moved_fields_kept (upds : list (gmap string record)) (id : string)
    (l : loc) (k : string) :
  ∀ s : GameClient,
  reachable s →
  players s !! id = Some l →
  (∀ u r, u ∈ upds → u !! id = Some r → r !! k = None) →
  let s' := (run (moves upds) s).1 in
  players s' !! id = Some l ∧ deref s' l !! k = deref s l !! k.
Proof.
  induction upds as [|u upds IH]; intros s Hs Hl Hk; [done|].
  cbn [moves fmap list_fmap run fst].
  pose proof (reachable_wf s Hs) as Hwf.
  pose proof Hwf as (Ht & _ & _ & Ha & _).
  destruct (moved_step_fields u s) as (Hp & _ & _ & Hh).
  set (s1 := (step (WsMessage (players_moved u)) s).1) in *.
  assert (Hs1 : reachable s1) by (apply reach_step, Hs).
  assert (Hl1 : players s1 !! id = Some l) by (by rewrite Hp).
  destruct (IH s1 Hs1 Hl1) as (IHp & IHk).
  { intros u' r Hu'. apply Hk. by right. }
  split; [exact IHp|].
  fold (moves upds). rewrite IHk.
  assert (Hd : deref s1 l = deref (handlePlayersMoved u s).1 l)
    by (unfold deref; by rewrite Hh).
  rewrite Hd, (moved_record u s l Hwf); [|by left; rewrite (Ht _ _ Hl)|by eapply Ha].
  rewrite (Ht _ _ Hl).
  destruct (u !! id) as [r|] eqn:Hu; [|done].
  unfold Object_assign. apply lookup_union_r. eapply Hk; [by left|done].
Qed.

(** ** Plain histories *)

Lemma clean_reachable (s : GameClient) : Wire.clean s → reachable s.
Proof. induction 1; [apply reach_init|by apply reach_step]. Qed.

Lemma clean_run (es : list Event) :
  ∀ s : GameClient,
  Forall (λ e, Wire.plain e = true) es → Wire.clean s →
  Wire.clean (run es s).1.
Proof.
  induction es as [|e es IH]; intros s Hes Hs; [done|].
  apply Forall_cons in Hes as [He Hes]. cbn [run fst].
  apply IH; [done|]. by apply Wire.clean_step.
Qed.

Lemma plain_moves (upds : list (gmap string record)) :
  Forall (λ u, Wire.plainPlayers u = true) upds →
  Forall (λ e, Wire.plain e = true) (moves upds).
Proof. intros H. unfold moves. by apply Forall_fmap. Qed.

(** C2 (as amended). In the [GameClient] of game.js, when the ids, field
    names, avatar names and directions of the messages received so far and
    of the updates are not names of properties of [Object.prototype]: along
    every run of [players_moved] updates, an actor of the table keeps its
    record object, and every field of it that no update of the run supplies
    for that actor keeps its value. (In the second client of script.js an
    update replaces the record of each actor it names.) *)
Theorem moved_fields_merge (s : GameClient)
    (upds : list (gmap string record)) (id : string) (l : loc) (k : string) :
  Wire.clean s →
  Forall (λ u, Wire.plainPlayers u = true) upds →
  Wire.ordinary id = true → Wire.ordinary k = true →
  players s !! id = Some l →
  (∀ u r, u ∈ upds → u !! id = Some r → r !! k = None) →
  let s' := (run (moves upds) s).1 in
  (Wire.clean s' ∧ players s' !! id = Some l
   ∧ deref s' l !! k = deref s l !! k)
  ∧ (∀ t upd r, upd !! id = Some r →
       Script.players (Script.onPlayersMoved upd t) !! id = Some r).
Proof.
  intros Hs Hupds _ _ Hl Hk s'. split.
  - split; [by apply clean_run; [apply plain_moves|]|].
    apply moved_fields_kept; [by apply clean_reachable|done..].
  - intros t upd r. apply script_moved_assigns.
Qed.

Lemma moved_fields_merge_witness :
  let s' := (run (moves [ {[ "p1" := {[ "x" := VNum 5 ]} ]} ])
               Samples.joined).1 in
  players s' !! "p1" = Some (0%nat, "p1")
  ∧ deref s' (0%nat, "p1") !! "username" = Some (VStr "hero").
Proof.
  refine (proj2 (proj1 (moved_fields_merge Samples.joined
           [ {[ "p1" := {[ "x" := VNum 5 ]} ]} ] "p1" (0%nat, "p1") "username"
           _ _ _ _ _ _))).
  - refine (Wire.clean_step (WsMessage Samples.welcome) _ _
              (Wire.clean_step WsOpen _ _ (Wire.clean_init 800 600)));
      vm_compute; reflexivity.
  - repeat constructor.
  - vm_compute. reflexivity.
  - vm_compute. reflexivity.
  - vm_compute. reflexivity.
  - intros u r Hu%list_elem_of_singleton Hr. subst u.
    vm_compute in Hr. injection Hr as <-. vm_compute. reflexivity.
Defined.

(** C2, as stated, fails in the second client of script.js: the update is
    assigned to the table, so the record of "p2" is replaced and its
    "username" is gone. *)
Lemma script_moved_replaces_record :
  let t := Samples.scriptJoined in
  let upd : gmap string record := {[ "p2" := {[ "x" := VNum 5 ]} ]} in
  let t' := Script.onPlayersMoved upd t in
  upd !! "p2" ≫= (.!! "username") = None
  ∧ Script.players t !! "p2" ≫= (.!! "username") = Some (VStr "ann")
  ∧ Script.players t' !! "p2" ≫= (.!! "username") = None
  ∧ Script.players t' !! "p2" = Some {[ "x" := VNum 5 ]}.
Proof. vm_compute. done. Qed.

(** ** Leaving *)

Lemma moves_keep_table (upds : list (gmap string record)) :
  ∀ s : GameClient, players (run (moves upds) s).1 = players s.
Proof.
  induction upds as [|u upds IH]; intros s; [done|].
  cbn [moves fmap list_fmap run fst]. fold (moves upds). rewrite IH.
  apply moved_step_fields.
Qed.

Lemma mergeMoved_absent (table : gmap string loc) (upd : gmap string record)
    (h : gmap loc record) (id : string) :
  (∀ i l, table !! i = Some l → l.2 = i) →
  table !! id = None →
  mergeMoved table upd h = mergeMoved table (delete id upd) h.
Proof.
  intros Hkeyed Hid. apply map_eq. intros l.
  rewrite !mergeMoved_lookup by done.
  destruct (decide (l.2 = id)) as [<-|Hne].
  - rewrite lookup_delete_eq. destruct (upd !! l.2); [|done].
    rewrite decide_False; [done|congruence].
  - by rewrite lookup_delete_ne.
Qed.

Lemma step_keeps_absent (e : Event) (s : GameClient) (id : string) :
  Wire.adds id e = false → players s !! id = None →
  players (step e s).1 !! id = None.
Proof.
  intros Ha Hn. destruct e as [| | | | |m| | | | | | |];
    try (by_cases_on_handler; fail).
  destruct m as [[] pid ps avs err|id' p a|u|id'|].
  - cbn [Wire.adds] in Ha. apply bool_decide_eq_false in Ha.
    assert (ps !! id = None) as Hps
      by (destruct (ps !! id); [by destruct Ha|done]).
    unfold_handlers. fields. repeat (case_match; fields);
      by rewrite snapshotTable_lookup, Hps.
  - by_cases_on_handler.
  - cbn [Wire.adds] in Ha. apply String.eqb_neq in Ha.
    by_cases_on_handler. by rewrite lookup_insert_ne.
  - destruct (moved_step_fields u s) as (-> & _). done.
  - by_cases_on_handler.
    destruct (decide (id' = id)) as [->|Hne];
      [apply lookup_delete_eq|by rewrite lookup_delete_ne].
  - by_cases_on_handler.
Qed.

Lemma run_keeps_absent (es : list Event) (id : string) :
  ∀ s : GameClient,
  Forall (λ e, Wire.adds id e = false) es → players s !! id = None →
  players (run es s).1 !! id = None.
Proof.
  induction es as [|e es IH]; intros s Hes Hn; [done|].
  apply Forall_cons in Hes as [He Hes]. cbn [run fst].
  apply IH; [done|]. by apply step_keeps_absent.
Qed.

Lemma moved_absent (s : GameClient) (id : string) :
  reachable s → players s !! id = None →
  myPlayer s = None ∨ playerId s ≠ Some id →
  (∀ upd, handlePlayersMoved upd s = handlePlayersMoved (delete id upd) s)
  ∧ (∀ u, handlePlayersMoved {[ id := u ]} s = (set_needsRedraw true s, [])).
Proof.
  intros Hs Hgone Hother.
  destruct (reachable_wf s Hs) as (Hkeyed & Hself & _).
  assert (Hkey : myPlayer s = None ∨ playerKey s ≠ id).
  { destruct (myPlayer s) as [l|] eqn:Hme; [right|by left].
    unfold playerKey. rewrite (Hself l Hme).
    destruct Hother as [?|Hne]; [done|].
    intros <-. apply Hne. by rewrite (Hself l Hme). }
  split.
  - intros upd.
    pose proof (mergeMoved_absent (players s) upd (heap s) id Hkeyed Hgone)
      as Hm.
    unfold_handlers. fields. rewrite <- Hm. unfold playerKey in *. fields.
    destruct (myPlayer s) as [l|]; [|done].
    destruct Hkey as [?|Hne]; [done|].
    by rewrite lookup_delete_ne.
  - intros u.
    assert (Hm : mergeMoved (players s) {[ id := u ]} (heap s) = heap s).
    { unfold mergeMoved. rewrite map_fold_singleton. by rewrite Hgone. }
    unfold_handlers. fields. rewrite Hm. unfold playerKey in *. fields.
    destruct (myPlayer s) as [l|].
    + destruct Hkey as [?|Hne]; [done|].
      rewrite lookup_singleton_ne by done. by destruct s.
    + by destruct s.
Qed.

(** C5 (as amended). When the ids, field names, avatar names and directions
    of the messages are not names of properties of [Object.prototype]: once
    [player_left] was applied the table has no entry for the id, and it has
    none after any later events other than a join response that lists the id
    or a [player_joined] for it; no run of [players_moved] updates brings it
    back. In any such later state, unless the id is the one of a held local
    reference, an update has the same outcome with or without its entry for
    the id, and an update that names only this id has no effect and changes
    nothing except that it requests a redraw. *)
Theorem left_actor_stays_gone (s : GameClient) (id : string)
    (es : list Event) :
  Wire.clean s → Wire.ordinary id = true →
  Forall (λ e, Wire.plain e = true) es →
  Forall (λ e, Wire.adds id e = false) es →
  let s1 := (step (WsMessage (player_left id)) s).1 in
  let s2 := (run es s1).1 in
  players s1 !! id = None
  ∧ players s2 !! id = None
  ∧ (∀ upds, Forall (λ u, Wire.plainPlayers u = true) upds →
       players (run (moves upds) s2).1 !! id = None)
  ∧ Wire.clean s2
  ∧ (myPlayer s2 = None ∨ playerId s2 ≠ Some id →
     (∀ upd, Wire.plainPlayers upd = true →
        handlePlayersMoved upd s2 = handlePlayersMoved (delete id upd) s2)
     ∧ (∀ u, handlePlayersMoved {[ id := u ]} s2
             = (set_needsRedraw true s2, []))).
Proof.
  intros Hs Hid Hplain Hadds s1 s2.
  assert (H1 : players s1 !! id = None).
  { subst s1. by_cases_on_handler. apply lookup_delete_eq. }
  assert (H2 : players s2 !! id = None) by by apply run_keeps_absent.
  assert (Hc1 : Wire.clean s1) by (by apply Wire.clean_step).
  assert (Hc2 : Wire.clean s2) by (by apply clean_run).
  split_and!; try done.
  - intros upds _. by rewrite moves_keep_table.
  - intros Hother.
    destruct (moved_absent s2 id (clean_reachable _ Hc2) H2 Hother) as [Ha Hb].
    split; [intros upd _; apply Ha|exact Hb].
Qed.

Lemma left_actor_stays_gone_witness :
  let s2 := (run [AnimationFrame; Resize 1024 768; AnimationFrame]
               (step (WsMessage (player_left "p2")) Samples.joined).1).1 in
  players s2 !! "p2" = None
  ∧ needsRedraw s2 = false
  ∧ handlePlayersMoved {[ "p2" := {[ "x" := VNum 5 ]} ]} s2
    = (set_needsRedraw true s2, []).
Proof.
  destruct (left_actor_stays_gone Samples.joined "p2"
              [AnimationFrame; Resize 1024 768; AnimationFrame])
    as (_ & H2 & _ & _ & H5).
  - refine (Wire.clean_step (WsMessage Samples.welcome) _ _
              (Wire.clean_step WsOpen _ _ (Wire.clean_init 800 600)));
      vm_compute; reflexivity.
  - vm_compute. reflexivity.
  - repeat constructor.
  - repeat constructor.
  - split; [exact H2|]. split; [vm_compute; reflexivity|].
    apply H5. right. vm_compute. discriminate.
Defined.

(** C5, as stated, fails for the local id: after [player_left] for "p1" the
    table has no entry, yet an update naming "p1" moves the camera from
    (0, 0) to (600, 0) and rewrites the record still held by [myPlayer]. *)
Lemma left_self_still_moves :
  let s1 := (handlePlayerLeft "p1" Samples.joined).1 in
  let r := handlePlayersMoved {[ "p1" := {[ "x" := VNum 1000 ]} ]} s1 in
  players s1 !! "p1" = None
  ∧ players r.1 !! "p1" = None
  ∧ camera s1 = Camera.mk (ofZ 0) (ofZ 0) 800 600
  ∧ camera r.1 = Camera.mk (ofZ 600) (ofZ 0) 800 600
  ∧ deref s1 (0%nat, "p1") !! "x" = Some (VNum 2040)
  ∧ deref r.1 (0%nat, "p1") !! "x" = Some (VNum 1000)
  ∧ r ≠ (s1, []).
Proof.
  split_and!; try (vm_compute; reflexivity).
  intros H. apply (f_equal (λ r, Camera.x (camera r.1))) in H.
  vm_compute in H. discriminate H.
Qed.

(** ** The local reference *)

Lemma join_aliases (n : nat) (pid : string) (ps : gmap string record)
    (avs : gmap string Avatar.t) (r : record) (s0 : GameClient) :
  ps !! pid = Some r →
  let s := (handleJoinGameSuccess n pid ps avs s0).1 in
  aliased s pid (n, pid) ∧ deref s (n, pid) = r.
Proof.
  intros Hr.
  assert (Hh : (snapshotObjects n ps ∪ heap s0) !! (n, pid) = Some r)
    by (apply lookup_union_Some_l; by rewrite snapshotObjects_lookup).
  unfold aliased, deref. unfold_handlers. fields.
  rewrite !snapshotTable_lookup, !Hr. cbn [fmap option_fmap option_map].
  fields. repeat (case_match; fields); split_and!;
    first [done | by rewrite snapshotTable_lookup, Hr | by rewrite Hh].
Qed.

Lemma moved_effects (upd : gmap string record) (s : GameClient) (l : loc)
    (u : record) :
  myPlayer s = Some l → upd !! playerKey s = Some u →
  (handlePlayersMoved upd s).2 = [Centered]
  ∧ camera (handlePlayersMoved upd s).1
    = Camera.mk
        (clampAxis (ToNumber (deref (handlePlayersMoved upd s).1 l !! "x"))
           (Camera.width (camera s)) (worldWidth s))
        (clampAxis (ToNumber (deref (handlePlayersMoved upd s).1 l !! "y"))
           (Camera.height (camera s)) (worldHeight s))
        (Camera.width (camera s)) (Camera.height (camera s)).
Proof.
  intros Hme Hu. unfold_handlers. fields. unfold playerKey in *. fields.
  rewrite Hme, Hu. fields. rewrite ?Hme. fields. done.
Qed.

Lemma moved_step_effects (u : gmap string record) (s : GameClient) :
  (step (WsMessage (players_moved u)) s).2 = (handlePlayersMoved u s).2
  ∧ camera (step (WsMessage (players_moved u)) s).1
    = camera (handlePlayersMoved u s).1.
Proof.
  unfold step, onmessage, andThen, modify, handleServerMessage. fields.
  by rewrite app_nil_r.
Qed.

Lemma left_step_fields (id : string) (s : GameClient) :
  let s' := (step (WsMessage (player_left id)) s).1 in
  players s' = delete id (players s) ∧ myPlayer s' = myPlayer s
  ∧ playerId s' = playerId s ∧ heap s' = heap s ∧ camera s' = camera s
  ∧ worldWidth s' = worldWidth s ∧ worldHeight s' = worldHeight s.
Proof. by_cases_on_handler. Qed.

Lemma join_step_fields (pid : string) (ps : gmap string record)
    (avs : gmap string Avatar.t) (err : option string) (s : GameClient) :
  let s' := (step (WsMessage (join_game true pid ps avs err)) s).1 in
  let sj := (handleJoinGameSuccess (received s) pid ps avs s).1 in
  players s' = players sj ∧ myPlayer s' = myPlayer sj
  ∧ playerId s' = playerId sj ∧ heap s' = heap sj.
Proof. by_cases_on_handler. Qed.

(** C10 (as amended). A successful join whose snapshot holds the local id
    leaves [myPlayer] and the table entry of that id referring to one record.
    From then on every [players_moved], and every [player_joined] for another
    id, keeps them one record, and a merge for the local id is the merge seen
    through either name. [player_left] for the local id removes the table
    entry and leaves [myPlayer] and its record; a later [players_moved]
    naming the local id merges into that record and centers the camera on
    it, without bringing a table entry back. *)
Theorem local_reference_aliasing (s : GameClient) (pid : string) (l : loc) :
  reachable s →
  aliased s pid l →
  (∀ s0 ps avs err r, ps !! pid = Some r →
     let sj := (step (WsMessage (join_game true pid ps avs err)) s0).1 in
     aliased sj pid (received s0, pid) ∧ deref sj (received s0, pid) = r)
  ∧ (∀ upd,
       let s' := (step (WsMessage (players_moved upd)) s).1 in
       aliased s' pid l
       ∧ ∀ u, upd !! pid = Some u → deref s' l = Object_assign (deref s l) u)
  ∧ (∀ id p a, id ≠ pid →
       aliased (step (WsMessage (player_joined id p a)) s).1 pid l)
  ∧ (let s1 := (step (WsMessage (player_left pid)) s).1 in
     players s1 !! pid = None ∧ myPlayer s1 = Some l
     ∧ deref s1 l = deref s l
     ∧ ∀ upd u, upd !! pid = Some u →
         let r := step (WsMessage (players_moved upd)) s1 in
         let merged := Object_assign (deref s l) u in
         players r.1 !! pid = None ∧ myPlayer r.1 = Some l
         ∧ deref r.1 l = merged
         ∧ r.2 = [Centered]
         ∧ camera r.1
           = Camera.mk
               (clampAxis (ToNumber (merged !! "x"))
                  (Camera.width (camera s)) (worldWidth s))
               (clampAxis (ToNumber (merged !! "y"))
                  (Camera.height (camera s)) (worldHeight s))
               (Camera.width (camera s)) (Camera.height (camera s))).
Proof.
  intros Hs (Hid & Hme & Htab).
  pose proof (reachable_wf s Hs) as Hwf.
  pose proof Hwf as (Hkeyed & _ & _ & _ & Halloc).
  pose proof (Hkeyed _ _ Htab) as Hl2.
  split_and!.
  - intros s0 ps avs err r Hr sj.
    destruct (join_aliases (received s0) pid ps avs r s0 Hr) as ((?&?&?)&Hh).
    destruct (join_step_fields pid ps avs err s0) as (Hp & Hm & Hi & Hj).
    fold sj in Hp, Hm, Hi, Hj. unfold aliased, deref in *.
    rewrite Hp, Hm, Hi, Hj. done.
  - intros upd s'.
    destruct (moved_step_fields upd s) as (Hp & Hm & Hi & Hh).
    fold s' in Hp, Hm, Hi, Hh. split.
    + unfold aliased. by rewrite Hp, Hm, Hi.
    + intros u Hu. unfold deref at 1. rewrite Hh.
      fold (deref (handlePlayersMoved upd s).1 l).
      rewrite (moved_record upd s l Hwf); [|by right|by apply Halloc].
      by rewrite Hl2, Hu.
  - intros id p a Hne. unfold aliased. by_cases_on_handler.
    by rewrite lookup_insert_ne.
  - destruct (left_step_fields pid s) as (Hp & Hm & Hi & Hh & Hc & HW & HH).
    set (s1 := (step (WsMessage (player_left pid)) s).1) in *.
    assert (Hs1 : reachable s1) by apply reach_step, Hs.
    pose proof (reachable_wf s1 Hs1) as Hwf1.
    assert (Hd1 : deref s1 l = deref s l) by (unfold deref; by rewrite Hh).
    assert (Hgone : players s1 !! pid = None)
      by (rewrite Hp; apply lookup_delete_eq).
    assert (Hme1 : myPlayer s1 = Some l) by congruence.
    split_and!; [done..|].
    intros upd u Hu r merged.
    destruct (moved_step_fields upd s1) as (Hp2 & Hm2 & _ & Hh2).
    destruct (moved_step_effects upd s1) as (He2 & Hc2).
    assert (Hkey : upd !! playerKey s1 = Some u)
      by (unfold playerKey; by rewrite Hi, Hid).
    destruct (moved_effects upd s1 l u Hme1 Hkey) as (He & Hcam).
    assert (Hd2 : deref (handlePlayersMoved upd s1).1 l = merged).
    { rewrite (moved_record upd s1 l Hwf1); [|by right|].
      - by rewrite Hl2, Hu, Hd1.
      - rewrite Hh. by apply Halloc. }
    subst r. split_and!.
    + by rewrite Hp2.
    + by rewrite Hm2.
    + unfold deref at 1. rewrite Hh2. exact Hd2.
    + by rewrite He2.
    + rewrite Hc2, Hcam, Hd2. by rewrite Hc, HW, HH.
Qed.

Lemma local_reference_aliasing_witness :
  let s' := (step (WsMessage (players_moved
                     {[ "p1" := {[ "x" := VNum 5 ]} ]})) Samples.joined).1 in
  aliased s' "p1" (0%nat, "p1")
  ∧ deref s' (0%nat, "p1") !! "x" = Some (VNum 5)
  ∧ deref s' (0%nat, "p1") !! "y" = Some (VNum 10).
Proof.
  destruct (local_reference_aliasing Samples.joined "p1" (0%nat, "p1"))
    as (_ & Hmoved & _).
  - do 2 apply reach_step. apply reach_init.
  - vm_compute. done.
  - destruct (Hmoved {[ "p1" := {[ "x" := VNum 5 ]} ]}) as (Ha & Hd).
    split; [exact Ha|]. rewrite (Hd {[ "x" := VNum 5 ]} eq_refl).
    vm_compute. done.
Defined.

(** C10, as stated, fails for a [player_joined] that carries the local id:
    the table entry then refers to the new record while [myPlayer] keeps
    the old one, and a later update reaches the two separately. *)
Lemma joined_self_splits_reference :
  let s := (step (WsMessage (player_joined "p1" Samples.ann Samples.knight))
              Samples.joined).1 in
  aliased Samples.joined "p1" (0%nat, "p1")
  ∧ myPlayer s = Some (0%nat, "p1")
  ∧ players s !! "p1" = Some (1%nat, "p1")
  ∧ ¬ aliased s "p1" (0%nat, "p1")
  ∧ deref s (0%nat, "p1") !! "username" = Some (VStr "hero")
  ∧ deref s (1%nat, "p1") !! "username" = Some (VStr "ann").
Proof.
  split_and!; try (vm_compute; done).
  intros (_ & _ & H). vm_compute in H. discriminate H.
Qed.

(** ** Centering and the two readiness flags *)








(** ** Keyboard translation *)

Lemma arrowDirection_Some (k d : string) :
  Script.arrowDirection k = Some d →
  (k = "ArrowUp" ∧ d = "up") ∨ (k = "ArrowDown" ∧ d = "down")
  ∨ (k = "ArrowLeft" ∧ d = "left") ∨ (k = "ArrowRight" ∧ d = "right").
Proof.
  unfold Script.arrowDirection.
  repeat match goal with
         | |- context [String.eqb k ?a] =>
             destruct (String.eqb_spec k a) as [->|_]; [intros [= <-]; tauto|]
         end.
  discriminate.
Qed.

Lemma game_keyup_stops (g : GameClient) (key : string) :
  isOpen g = true → key ∈ movementKeys →
  onkeyup key g = (g, [Send Stop]).
Proof.
  intros Ho Hk. unfold onkeyup. rewrite bool_decide_eq_true_2 by done.
  unfold sendStopCommand. by rewrite Ho.
Qed.

(** C4 (as amended). In the second client of script.js, joined and with
    the channel open, when two arrow keys are held, releasing either sends
    exactly one move command, for the direction of the other, and no stop;
    releasing the last one then sends exactly one stop. In game.js, with the
    channel open, the release of any movement key sends exactly one stop
    command and no move, whatever else is held. *)
Theorem keyup_translation (g : GameClient) (key : string)
    (t0 : Script.State) (k1 k2 d1 d2 : string) :
  isOpen g = true → key ∈ movementKeys →
  Script.joined t0 = true → Script.readyState t0 = OPEN →
  Script.keysPressed t0 = Script.keysPressed (Script.init 0 0) →
  Script.arrowDirection k1 = Some d1 →
  Script.arrowDirection k2 = Some d2 →
  k1 ≠ k2 →
  let t := (Script.onkeydown k2 (Script.onkeydown k1 t0).1).1 in
  onkeyup key g = (g, [Send Stop])
  ∧ (Script.onkeyup k1 t).2 = [MoveDirection d2]
  ∧ (Script.onkeyup k2 t).2 = [MoveDirection d1]
  ∧ (Script.onkeyup k2 (Script.onkeyup k1 t).1).2 = [Stop]
  ∧ (Script.onkeyup k1 (Script.onkeyup k2 t).1).2 = [Stop].
Proof.
  intros Ho Hk Hj Hr Hkp H1 H2 Hne t.
  split; [by apply game_keyup_stops|].
  destruct t0 as [[[|c id]|] pl av kp vp cw ch rs]; try discriminate Hj.
  cbn in Hr, Hkp. subst rs kp. subst t.
  apply arrowDirection_Some in H1, H2.
  destruct H1 as [[-> ->]|[[-> ->]|[[-> ->]|[-> ->]]]];
  destruct H2 as [[-> ->]|[[-> ->]|[[-> ->]|[-> ->]]]];
    try done; split_and!; vm_compute; reflexivity.
Qed.

Lemma keyup_translation_witness :
  let t := (Script.onkeydown "ArrowRight"
              (Script.onkeydown "ArrowUp" Samples.scriptJoined).1).1 in
  (Script.onkeyup "ArrowUp" t).2 = [MoveDirection "right"]
  ∧ (Script.onkeyup "ArrowRight" (Script.onkeyup "ArrowUp" t).1).2 = [Stop].
Proof.
  destruct (keyup_translation (step WsOpen (init 800 600)).1 "w"
              Samples.scriptJoined "ArrowUp" "ArrowRight" "up" "right")
    as (_ & H1 & _ & H2 & _); try (vm_compute; reflexivity).
  - by apply (bool_decide_unpack _).
  - discriminate.
  - split; [exact H1 | exact H2].
Defined.

(** C4, as stated, fails in game.js: with "ArrowUp" and "ArrowRight" both
    held, the release of "ArrowUp" sends a stop command and no move. *)
Lemma game_keyup_stops_while_held :
  let g := (run [WsOpen; KeyDown "ArrowUp"; KeyDown "ArrowRight"]
              (init 800 600)).1 in
  (run [WsOpen; KeyDown "ArrowUp"; KeyDown "ArrowRight"] (init 800 600)).2
  = [Send (JoinGame "Blankey"); Send (MoveDirection "up");
     Send (MoveDirection "right")]
  ∧ (step (KeyUp "ArrowUp") g).2 = [Send Stop].
Proof. split; vm_compute; reflexivity. Qed.

(** ** Frame resolution *)

Lemma index_nat {A} (fs : list A) (n : nat) :
  index fs (ofZ (Z.of_nat n)) = fs !! n.
Proof.
  unfold index, ofZ. rewrite Qfloor_Z.
  rewrite (proj2 (Qeq_bool_iff _ _)) by reflexivity.
  rewrite (proj2 (Z.leb_le _ _)) by lia.
  by rewrite Nat2Z.id.
Qed.

(** [Math.min(player.animationFrame || 0, frames.length - 1)] *)
Lemma clamped_frame_index (idx len : nat) :
  0 < len →
  Math_min
    (if truthy (Some (VNum (inject_Z (Z.of_nat idx))))
     then ToNumber (Some (VNum (inject_Z (Z.of_nat idx)))) else ofZ 0)
    (ofZ (Z.of_nat len - 1))
  = ofZ (Z.of_nat (idx `min` (len - 1))).
Proof.
  intros Hlen.
  assert (Hidx : (if truthy (Some (VNum (inject_Z (Z.of_nat idx))))
                  then ToNumber (Some (VNum (inject_Z (Z.of_nat idx))))
                  else ofZ 0) = ofZ (Z.of_nat idx)).
  { cbn [truthy ToNumber]. destruct (Qeq_bool _ _) eqn:E; [|done].
    apply Qeq_bool_iff in E. change 0%Q with (inject_Z 0) in E.
    apply (proj1 (inject_Z_injective _ _)) in E.
    cbn [negb]. unfold ofZ. by rewrite E. }
  rewrite Hidx. unfold Math_min, ofZ. f_equal.
  destruct (Qle_bool _ _) eqn:E.
  - apply Qle_bool_iff in E. rewrite <- Zle_Qle in E. f_equal. lia.
  - assert (¬ (Z.of_nat idx ≤ Z.of_nat len - 1)%Z) as Hn.
    { intros Hle. rewrite Zle_Qle in Hle. apply Qle_bool_iff in Hle.
      congruence. }
    f_equal. lia.
Qed.

Lemma resolveFrame_west (avs : gmap string Avatar.t) (player : record)
    (name : string) (a : Avatar.t) (byDir : gmap string (list Image.t))
    (idx : nat) :
  player !! "avatar" = Some (VStr name) →
  player !! "facing" = Some (VStr "west") →
  player !! "animationFrame" = Some (VNum (inject_Z (Z.of_nat idx))) →
  avs !! name = Some a →
  Avatar.loadedImagesByDir a = Some byDir →
  noFrames (byDir !! "west") = true →
  resolveFrame avs player
  = match byDir !! "east" with
    | Some (img :: imgs) =>
        (λ i, (i, true)) <$> (img :: imgs) !! (idx `min` length imgs)
    | _ => None
    end.
Proof.
  intros Hav Hf Hi Ha Hl Hw. unfold resolveFrame.
  rewrite Hav, Hf, Hi. cbn [propertyKey truthy String.eqb Ascii.eqb Bool.eqb
    negb mbind option_bind strictEqStr].
  rewrite Ha. cbn [mbind option_bind]. rewrite Hl. cbn [mbind option_bind].
  rewrite Hw. cbn [andb].
  destruct (byDir !! "east") as [[|img imgs]|]; cbn [noFrames]; try done.
  cbn [default from_option Datatypes.id].
  change (negb (Qeq_bool (inject_Z (Z.of_nat idx)) 0))
    with (truthy (Some (VNum (inject_Z (Z.of_nat idx))))).
  rewrite (clamped_frame_index idx (length (img :: imgs)))
    by (cbn [length]; lia).
  rewrite index_nat. cbn [length]. replace (S (length imgs) - 1) with (length imgs) by lia.
  by destruct (_ !! _).
Qed.

Lemma preloadAvatar_loaded (a : Avatar.t) (fr : gmap string (list string))
    (dir : string) :
  Avatar.frames a = Some fr → Avatar.loadedImagesByDir a = None →
  ∃ byDir, Avatar.loadedImagesByDir (preloadAvatar a) = Some byDir
           ∧ byDir !! dir = fmap newImage <$> fr !! dir.
Proof.
  intros Hf Hl. unfold preloadAvatar. rewrite Hf, Hl.
  cbn [Avatar.loadedImagesByDir default from_option Datatypes.id].
  eexists. split; [reflexivity|].
  rewrite (right_id_L ∅ (∪)), map_lookup_imap.
  destruct (fr !! dir) as [urls|]; [|done].
  cbn [mbind option_bind]. rewrite lookup_empty.
  cbn [default from_option Datatypes.id fmap option_fmap option_map].
  unfold loadFrames. by rewrite drop_nil, app_nil_r.
Qed.

Lemma noFrames_fmap {A B} (f : A → B) (o : option (list A)) :
  noFrames (fmap (M := list) f <$> o) = noFrames o.
Proof. by destruct o as [[|]|]. Qed.

Lemma debug_resolveFrame_west (davs : gmap string DebugGame.Avatar.t)
    (player : record) (name : string) (da : DebugGame.Avatar.t) (idx : nat) :
  player !! "avatar" = Some (VStr name) →
  player !! "facing" = Some (VStr "west") →
  player !! "animationFrame" = Some (VNum (inject_Z (Z.of_nat idx))) →
  davs !! name = Some da →
  is_Some (DebugGame.Avatar.loadedImages da) →
  DebugGame.resolveFrame davs player
  = match DebugGame.Avatar.frames da !! "west" with
    | Some fs => fs !! idx
    | None => DebugGame.Avatar.frames da !! "east" ≫= (.!! idx)
    end ≫= λ d, if String.eqb d "" then None else Some (d, true).
Proof.
  intros Hav Hf Hi Ha [li Hl]. unfold DebugGame.resolveFrame.
  rewrite Hav, Hf, Hi. cbn [propertyKey strictEqStr String.eqb Ascii.eqb
    Bool.eqb mbind option_bind].
  rewrite Ha. cbn [mbind option_bind]. rewrite Hl. cbn [mbind option_bind].
  assert (Hat : ∀ fs : list string,
    DebugGame.frameAt fs
      (if truthy (Some (VNum (inject_Z (Z.of_nat idx))))
       then Some (VNum (inject_Z (Z.of_nat idx))) else Some (VNum 0))
    = fs !! idx).
  { intros fs. cbn [truthy]. destruct (Qeq_bool _ _) eqn:E; cbn [negb].
    - apply Qeq_bool_iff in E. change 0%Q with (inject_Z 0) in E.
      apply (proj1 (inject_Z_injective _ _)) in E.
      replace idx with 0 by lia. apply (index_nat fs 0).
    - apply (index_nat fs idx). }
  destruct (DebugGame.Avatar.frames da !! "west") as [fs|] eqn:Hw.
  - rewrite bool_decide_eq_true_2 by eauto. cbn [negb andb mbind option_bind].
    by rewrite Hat.
  - rewrite bool_decide_eq_false_2 by (by intros [? ?]). cbn [negb andb].
    destruct (DebugGame.Avatar.frames da !! "east") as [fs|];
      cbn [mbind option_bind]; [|done].
    by rewrite Hat.
Qed.

(** The images of one direction after the decodings [ds]. *)
Lemma decoded_images (dir0 : string) (i0 : nat) (a : Avatar.t) (dir : string) :
  (λ byDir : gmap string (list Image.t), byDir !! dir)
    <$> Avatar.loadedImagesByDir (decoded dir0 i0 a)
  = (λ byDir : gmap string (list Image.t),
       (λ imgs, if decide (dir0 = dir)
                then alter (λ i, Image.mk (Image.src i) true) i0 imgs
                else imgs) <$> byDir !! dir)
      <$> Avatar.loadedImagesByDir a.
Proof.
  unfold decoded. cbn [Avatar.loadedImagesByDir].
  destruct (Avatar.loadedImagesByDir a) as [byDir|]; [|done].
  cbn [fmap option_fmap option_map]. f_equal.
  destruct (decide (dir0 = dir)) as [->|Hne].
  - rewrite lookup_alter_eq. by destruct (byDir !! dir).
  - rewrite lookup_alter_ne by done. by destruct (byDir !! dir).
Qed.

Lemma decodings_images (ds : list (string * nat)) :
  ∀ (a : Avatar.t) (byDir : gmap string (list Image.t)) (dir : string),
  Avatar.loadedImagesByDir a = Some byDir →
  ∃ byDir',
    Avatar.loadedImagesByDir (Wire.decodings ds a) = Some byDir'
    ∧ ∀ imgs, byDir !! dir = Some imgs →
        ∃ imgs', byDir' !! dir = Some imgs'
          ∧ length imgs' = length imgs
          ∧ ∀ i img, imgs !! i = Some img →
              imgs' !! i
              = Some (Image.mk (Image.src img)
                        (Image.complete img || bool_decide ((dir, i) ∈ ds))).
Proof.
  induction ds as [|[dir0 i0] ds IH]; intros a byDir dir Ha.
  - exists byDir. split; [done|]. intros imgs Hi. exists imgs.
    split; [done|]. split; [done|]. intros i [src c] Hl. rewrite Hl.
    cbn [Image.src Image.complete]. rewrite bool_decide_eq_false_2.
    + by rewrite orb_false_r.
    + by intros H%elem_of_nil.
  - cbn [Wire.decodings foldl fst snd]. fold (Wire.decodings ds).
    pose proof (decoded_images dir0 i0 a dir) as Hd. rewrite Ha in Hd.
    destruct (Avatar.loadedImagesByDir (decoded dir0 i0 a)) as [byDir1|] eqn:H1;
      [|discriminate Hd].
    cbn [fmap option_fmap option_map] in Hd. injection Hd as Hd.
    destruct (IH (decoded dir0 i0 a) byDir1 dir H1) as (byDir' & Hb & Himgs).
    exists byDir'. split; [exact Hb|]. intros imgs Hi.
    rewrite Hi in Hd. cbn [fmap option_fmap option_map] in Hd.
    destruct (Himgs _ Hd) as (imgs' & Hi' & Hlen & Hat).
    exists imgs'. split; [exact Hi'|]. split.
    + rewrite Hlen. destruct (decide (dir0 = dir)); [|done].
      by rewrite length_alter.
    + intros i img Hl.
      destruct (decide (dir0 = dir)) as [->|Hne].
      * destruct (decide (i0 = i)) as [->|Hni].
        -- rewrite (Hat i (Image.mk (Image.src img) true)).
           ++ cbn [Image.src Image.complete orb].
              rewrite bool_decide_eq_true_2; [by rewrite orb_true_r|].
              apply elem_of_cons. by left.
           ++ rewrite list_lookup_alter_eq, Hl. done.
        -- rewrite (Hat i img).
           ++ f_equal. f_equal. f_equal. apply bool_decide_ext.
              rewrite elem_of_cons. split; [tauto|].
              intros [Heq|?]; [congruence|done].
           ++ by rewrite list_lookup_alter_ne.
      * rewrite (Hat i img Hl). f_equal. f_equal. f_equal.
        apply bool_decide_ext. rewrite elem_of_cons. split; [tauto|].
        intros [Heq|?]; [congruence|done].
Qed.

Lemma decodings_no_images (ds : list (string * nat)) :
  ∀ (a : Avatar.t) (byDir : gmap string (list Image.t)) (dir : string),
  Avatar.loadedImagesByDir a = Some byDir →
  ∃ byDir',
    Avatar.loadedImagesByDir (Wire.decodings ds a) = Some byDir'
    ∧ noFrames (byDir' !! dir) = noFrames (byDir !! dir).
Proof.
  induction ds as [|[dir0 i0] ds IH]; intros a byDir dir Ha.
  - by exists byDir.
  - cbn [Wire.decodings foldl fst snd]. fold (Wire.decodings ds).
    pose proof (decoded_images dir0 i0 a dir) as Hd. rewrite Ha in Hd.
    destruct (Avatar.loadedImagesByDir (decoded dir0 i0 a)) as [byDir1|] eqn:H1;
      [|discriminate Hd].
    cbn [fmap option_fmap option_map] in Hd. injection Hd as Hd.
    destruct (IH (decoded dir0 i0 a) byDir1 dir H1) as (byDir' & Hb & Hn).
    exists byDir'. split; [exact Hb|]. rewrite Hn, Hd.
    destruct (byDir !! dir) as [imgs|]; [|done].
    cbn [fmap option_fmap option_map].
    destruct (decide (dir0 = dir)); [|done].
    destruct imgs as [|img imgs]; [done|]. by destruct i0.
Qed.

Lemma resolveFrame_after_decodings (avs : gmap string Avatar.t)
    (player : record) (name : string) (a : Avatar.t)
    (fr : gmap string (list string)) (ds : list (string * nat)) (idx : nat) :
  player !! "avatar" = Some (VStr name) →
  player !! "facing" = Some (VStr "west") →
  player !! "animationFrame" = Some (VNum (inject_Z (Z.of_nat idx))) →
  Avatar.frames a = Some fr → Avatar.loadedImagesByDir a = None →
  avs !! name = Some (Wire.decodings ds (preloadAvatar a)) →
  noFrames (fr !! "west") = true →
  resolveFrame avs player
  = match fr !! "east" with
    | Some (url :: urls) =>
        let j := idx `min` length urls in
        (λ u, (Image.mk u (bool_decide (("east", j) ∈ ds)), true))
          <$> (url :: urls) !! j
    | _ => None
    end.
Proof.
  intros Hav Hf Hi Hfr Hl Ha Hw.
  destruct (preloadAvatar_loaded a fr "west" Hfr Hl) as (byDir & Hb & Hbw).
  destruct (preloadAvatar_loaded a fr "east" Hfr Hl) as (byDir0 & Hb0 & Hbe).
  rewrite Hb in Hb0. injection Hb0 as <-.
  destruct (decodings_no_images ds _ byDir "west" Hb) as (byDir' & Hb' & Hnw).
  destruct (decodings_no_images ds _ byDir "east" Hb) as (byDir1 & Hb1 & Hne).
  rewrite Hb' in Hb1. injection Hb1 as <-.
  destruct (decodings_images ds _ byDir "east" Hb) as (byDir2 & Hb2 & Himgs).
  rewrite Hb' in Hb2. injection Hb2 as <-.
  rewrite (resolveFrame_west avs player name _ byDir' idx Hav Hf Hi Ha Hb');
    [|by rewrite Hnw, Hbw, noFrames_fmap].
  rewrite Hbe, noFrames_fmap in Hne.
  destruct (fr !! "east") as [[|url urls]|] eqn:He.
  - by destruct (byDir' !! "east") as [[|]|].
  - cbn [fmap option_fmap option_map] in Hbe.
    destruct (Himgs _ Hbe) as (imgs' & Hi' & Hlen & Hat).
    rewrite Hi'. rewrite length_fmap in Hlen.
    destruct imgs' as [|img imgs']; [discriminate Hlen|].
    cbn [length] in Hlen. injection Hlen as Hlen. rewrite Hlen. cbv zeta.
    destruct (lookup_lt_is_Some_2 (url :: urls) (idx `min` length urls))
      as [u Hu]; [cbn [length]; lia|].
    rewrite Hu. cbn [fmap option_fmap option_map].
    rewrite (Hat (idx `min` length urls) (newImage u));
      [done|by rewrite list_lookup_fmap, Hu].
  - by destruct (byDir' !! "east") as [[|]|].
Qed.

(** C7 (as amended). In game.js, for an avatar delivered with a non-empty
    "east" sequence and an empty or missing "west" sequence, whichever of its
    images have been decoded since it was preloaded, a player facing west
    resolves, for every frame index 0, 1, 2, ..., to the image of the east
    frame at that index, or of the last east frame when the index is past
    the end, with the mirror flag set, and whatever [drawPlayer] draws for
    the player is that image, decoded and mirrored; when the east sequence is
    empty or missing too, the player is skipped. In debug_game.js the
    fallback is taken only when "west" is missing, and an index past the end
    of the sequence skips the player instead of being clamped. *)
Theorem west_falls_back_to_east (avs : gmap string Avatar.t)
    (davs : gmap string DebugGame.Avatar.t) (player : record) (name : string)
    (a : Avatar.t) (da : DebugGame.Avatar.t)
    (fr : gmap string (list string)) (east : list string) (idx : nat)
    (ds : list (string * nat)) :
  player !! "avatar" = Some (VStr name) →
  player !! "facing" = Some (VStr "west") →
  player !! "animationFrame" = Some (VNum (inject_Z (Z.of_nat idx))) →
  Avatar.frames a = Some fr → Avatar.loadedImagesByDir a = None →
  avs !! name = Some (Wire.decodings ds (preloadAvatar a)) →
  davs !! name = Some da → DebugGame.Avatar.frames da = fr →
  is_Some (DebugGame.Avatar.loadedImages da) →
  noFrames (fr !! "west") = true →
  fr !! "east" = Some east → east ≠ [] →
  let j := idx `min` (length east - 1) in
  (∃ url, east !! j = Some url
          ∧ resolveFrame avs player
            = Some (Image.mk url (bool_decide (("east", j) ∈ ds)), true)
          ∧ ∀ s sp, avatars s = avs → drawPlayer s player = Some sp →
              Sprite.img sp = Image.mk url true ∧ Sprite.flipX sp = true
              ∧ ("east", j) ∈ ds)
  ∧ (∀ avs' a' fr' ds',
       Avatar.frames a' = Some fr' → Avatar.loadedImagesByDir a' = None →
       avs' !! name = Some (Wire.decodings ds' (preloadAvatar a')) →
       noFrames (fr' !! "west") = true → noFrames (fr' !! "east") = true →
       resolveFrame avs' player = None)
  ∧ (length east ≤ idx → DebugGame.resolveFrame davs player = None)
  ∧ (fr !! "west" = Some [] → DebugGame.resolveFrame davs player = None).
Proof.
  intros Hav Hf Hi Hfr Hl Ha Hda Hdfr Hdl Hw He Hne j.
  split_and!.
  - pose proof (resolveFrame_after_decodings avs player name a fr ds idx
                  Hav Hf Hi Hfr Hl Ha Hw) as Hr.
    rewrite He in Hr. destruct east as [|url urls]; [done|].
    cbv zeta in Hr. subst j. cbn [length].
    replace (S (length urls) - 1) with (length urls) by lia.
    destruct (lookup_lt_is_Some_2 (url :: urls) (idx `min` length urls))
      as [u Hu]; [cbn [length]; lia|].
    rewrite Hu in Hr. cbn [fmap option_fmap option_map] in Hr.
    exists u. split; [exact Hu|]. split; [exact Hr|].
    intros s sp Hs Hd. unfold drawPlayer in Hd. rewrite Hs, Hr in Hd.
    destruct (_ || _) in Hd; [discriminate Hd|].
    cbn [mbind option_bind Image.complete] in Hd.
    case_bool_decide as Hin; [|discriminate Hd].
    injection Hd as <-. by cbn [Sprite.img Sprite.flipX].
  - intros avs' a' fr' ds' Hfr' Hl' Ha' Hw' He'.
    rewrite (resolveFrame_after_decodings avs' player name a' fr' ds' idx
               Hav Hf Hi Hfr' Hl' Ha' Hw').
    by destruct (fr' !! "east") as [[|]|].
  - intros Hlen.
    rewrite (debug_resolveFrame_west davs player name da idx Hav Hf Hi Hda Hdl).
    rewrite Hdfr, He.
    destruct (fr !! "west") as [[|]|] eqn:Hw'; try done.
    cbn [mbind option_bind]. by rewrite (lookup_ge_None_2 east idx Hlen).
  - intros Hw'.
    rewrite (debug_resolveFrame_west davs player name da idx Hav Hf Hi Hda Hdl).
    rewrite Hdfr, Hw'. by rewrite lookup_nil.
Qed.

Lemma west_falls_back_to_east_witness :
  let s := (run [WorldImageLoad; AvatarImageLoad "knight" "east" 1]
              Samples.joined).1 in
  resolveFrame (avatars s) Samples.walker = Some (Image.mk "e1" true, true)
  ∧ drawPlayer s Samples.walker
    = Some (Sprite.mk (Image.mk "e1" true) true (Fin 792) (Fin 10)).
Proof.
  destruct (west_falls_back_to_east
              (avatars (run [WorldImageLoad; AvatarImageLoad "knight" "east" 1]
                          Samples.joined).1)
              {[ "knight" := Samples.debugKnight ]} Samples.walker "knight"
              Samples.knight Samples.debugKnight {[ "east" := ["e0"; "e1"] ]}
              ["e0"; "e1"] 5 [("east", 1%nat)])
    as ((url & Hu & Hr & _) & _); [try (vm_compute; reflexivity) ..|].
  - vm_compute. eauto.
  - discriminate.
  - cbv zeta. split; [|vm_compute; reflexivity].
    rewrite Hr. vm_compute in Hu. injection Hu as <-.
    vm_compute. reflexivity.
Defined.

(** C7, as stated, fails in debug_game.js: with east frames "e0", "e1" and
    no west frames, a player facing west on frame 5 is skipped, where
    game.js draws the last east frame mirrored. *)
Lemma debug_frame_not_clamped :
  DebugGame.resolveFrame {[ "knight" := Samples.debugKnight ]} Samples.walker
  = None
  ∧ DebugGame.resolveFrame {[ "knight" := Samples.debugKnight ]}
      (<["animationFrame" := VNum 1]> Samples.walker)
    = Some ("e1", true)
  ∧ resolveFrame (avatars Samples.joined) Samples.walker
    = Some (newImage "e1", true).
Proof. split_and!; vm_compute; reflexivity. Qed.


(** * Further properties *)

(** ** Sending *)

Ltac effect_cases H :=
  repeat (apply elem_of_cons in H as [H|H]; [try discriminate H|]);
  try (by apply elem_of_nil in H).

(** X1. Whatever the event, game.js sends a message only on a socket that
    is open when the handler ends; the join message is sent by the [open]
    handler alone and always carries the username "Blankey". *)
Theorem sends_only_when_open (e : Event) (s : GameClient) (m : ClientMessage) :
  Send m ∈ (step e s).2 →
  isOpen (step e s).1 = true
  ∧ (∀ u, m = JoinGame u → e = WsOpen ∧ u = "Blankey").
Proof.
  destruct e; by_cases_on_handler; intros Hsend; effect_cases Hsend.
  all: injection Hsend as ->.
  all: unfold isOpen in *; fields.
  all: split; [|intros u Hu; try discriminate Hu; by injection Hu as <-].
  all: try done.
  all: by destruct (ws s) as [[]|].
Qed.

Lemma sends_only_when_open_witness :
  isOpen (step WsOpen (init 800 600)).1 = true.
Proof.
  apply (sends_only_when_open WsOpen (init 800 600) (JoinGame "Blankey")).
  vm_compute. constructor.
Defined.

(** X2. Key presses, key releases, loss of focus and clicks never change
    the state of game.js, and with the socket not open they have no effect
    at all. *)
Theorem input_leaves_state (e : Event) (s : GameClient) :
  Shape.isInput e = true →
  (step e s).1 = s ∧ (isOpen s = false → (step e s).2 = []).
Proof.
  destruct e; try discriminate; intros _.
  all: unfold step, onkeydown, onkeyup, onblur, onclick, sendMoveCommand,
         sendStopCommand, skip.
  all: repeat case_match; cbn [fst snd]; split; try done.
  all: intros Hc; rewrite Hc in *; discriminate.
Qed.

Lemma input_leaves_state_witness :
  (step (KeyDown "w") Samples.joined).1 = Samples.joined.
Proof.
  apply (proj1 (input_leaves_state (KeyDown "w") Samples.joined eq_refl)).
Defined.

(** ** Keys *)

(** X3. The keys that the [keydown] listener of game.js turns into a
    direction are exactly the keys on whose release the [keyup] listener
    sends a stop. *)
Theorem movement_keys_agree (key : string) :
  is_Some (directionOfKey key) ↔ key ∈ movementKeys.
Proof.
  unfold directionOfKey, movementKeys.
  repeat case_bool_decide; split; intros Hk;
    first [by eauto | by destruct Hk | set_solver].
Qed.

(** ** Reconnection *)

Lemma step_attempts (e : Event) (s : GameClient) :
  maxReconnectAttempts (step e s).1 = maxReconnectAttempts s
  ∧ (reconnectAttempts s ≤ maxReconnectAttempts s →
     reconnectAttempts (step e s).1 ≤ maxReconnectAttempts s).
Proof.
  destruct e; by_cases_on_handler; split; try done; try lia.
  intros _. match goal with H : (_ <? _)%nat = true |- _ =>
    apply Nat.ltb_lt in H; lia end.
Qed.

Lemma connect_attempts_bounded (s : GameClient) :
  Connect.reachable s →
  maxReconnectAttempts s = 5 ∧ reconnectAttempts s ≤ 5.
Proof.
  induction 1 as [w h|w h|e s Hs [IHm IHa]].
  - cbn. lia.
  - cbn. lia.
  - destruct e as [e|].
    + cbn [Connect.step]. destruct (step_attempts e s) as [Hm Ha].
      rewrite Hm, IHm. split; [done|]. rewrite IHm in Ha. apply Ha. lia.
    + unfold Connect.step, Connect.connectionFailed. by_cases_on_handler.
      match goal with H : (_ <? _)%nat = true |- _ =>
        apply Nat.ltb_lt in H; lia end.
Qed.

(** X4. In every state game.js reaches, the constructor of [WebSocket]
    throwing or not, a timer is set only by [attemptReconnect], called by
    the [close] handler or by the [catch] branch of [connectToServer], one
    timer per call, for 2000 ms times the new attempt count: between 2000
    and 10000 ms, the count never exceeding 5. *)
Theorem backoff_bounded (s : GameClient) (e : Connect.Event) (ms : Z) :
  Connect.reachable s →
  SetTimeout ms ∈ (Connect.step e s).2 →
  ((e = Connect.Usual WsClose ∧ (Connect.step e s).2 = [SetTimeout ms])
   ∨ (e = Connect.TimeoutThrows
      ∧ (Connect.step e s).2
        = [ConsoleError "Failed to connect to server:" None; SetTimeout ms]))
  ∧ reconnectAttempts (Connect.step e s).1 = S (reconnectAttempts s)
  ∧ ms = (2000 * Z.of_nat (reconnectAttempts (Connect.step e s).1))%Z
  ∧ (2000 ≤ ms ≤ 10000)%Z
  ∧ reconnectAttempts (Connect.step e s).1 ≤ 5.
Proof.
  intros Hs.
  pose proof (connect_attempts_bounded _ (Connect.reach_step e s Hs))
    as [_ Hb].
  pose proof (connect_attempts_bounded s Hs) as [Hmax _].
  revert Hb. destruct e as [e|].
  - cbn [Connect.step].
    destruct e; by_cases_on_handler; intros Hb Hset; effect_cases Hset.
    unfold retryAfter in *. injection Hset as ->.
    split_and!; try done; try lia. by left.
  - unfold Connect.step, Connect.connectionFailed.
    by_cases_on_handler; intros Hb Hset; effect_cases Hset.
    unfold retryAfter in *. injection Hset as ->.
    split_and!; try done; try lia. by right.
Qed.

Lemma backoff_bounded_witness :
  (Connect.step Connect.TimeoutThrows (Connect.initThrown 800 600)).2
  = [ConsoleError "Failed to connect to server:" None; SetTimeout 4000].
Proof.
  destruct (backoff_bounded (Connect.initThrown 800 600)
              Connect.TimeoutThrows 4000) as ([[H _]|[_ H]] & _).
  - apply Connect.reach_initThrown.
  - vm_compute. do 2 constructor.
  - discriminate H.
  - exact H.
Defined.

(** ** Redrawing *)

(** X5. For the events of the model (window, socket, timer and input events
    and server messages that carry the fields their handler reads), when the
    ids, field names, avatar names and directions of the messages are not
    names of properties of [Object.prototype]: every event other than the
    decoding of an avatar image either leaves the player table, the player
    objects, the avatars and the camera as they were, or requests a
    redraw. *)
Theorem change_marks_redraw (e : Event) (s : GameClient) :
  Wire.clean s → Wire.plain e = true →
  (∀ name dir idx, e ≠ AvatarImageLoad name dir idx) →
  Wire.clean (step e s).1
  ∧ (Shape.sameView s (step e s).1 ∨ needsRedraw (step e s).1 = true).
Proof.
  intros Hs Hp Hne. split; [by apply Wire.clean_step|].
  clear Hs Hp. unfold Shape.sameView.
  destruct e; try (by (exfalso; eapply Hne)); by_cases_on_handler; eauto.
Qed.

Lemma change_marks_redraw_witness :
  let s' := (step (WsMessage (player_left "p2")) Samples.joined).1 in
  Shape.sameView Samples.joined s' ∨ needsRedraw s' = true.
Proof.
  refine (proj2 (change_marks_redraw (WsMessage (player_left "p2"))
                   Samples.joined _ _ _)).
  - refine (Wire.clean_step (WsMessage Samples.welcome) _ _
              (Wire.clean_step WsOpen _ _ (Wire.clean_init 800 600)));
      vm_compute; reflexivity.
  - vm_compute. reflexivity.
  - intros name dir idx. discriminate.
Defined.


(** ** Roster *)

Lemma mergeMoved_dom (table : gmap string loc) (upd : gmap string record)
    (h : gmap loc record) (l : loc) :
  is_Some (mergeMoved table upd h !! l) ↔ is_Some (h !! l).
Proof.
  unfold mergeMoved.
  apply (map_fold_weak_ind (λ (r : gmap loc record) (m : gmap string record),
    is_Some (r !! l) ↔ is_Some (h !! l))); [done|].
  intros i u m r _ IH. destruct (table !! i); [|done].
  by rewrite lookup_alter_is_Some.
Qed.

Lemma snapshotObjects_Some (n : nat) (ps : gmap string record) (l : loc) :
  is_Some (snapshotObjects n ps !! l) → l.1 = n.
Proof.
  unfold snapshotObjects. intros [r Hr].
  apply (lookup_kmap_Some (pair n)) in Hr as (i & -> & _). done.
Qed.

Lemma reachable_fresh (s : GameClient) : reachable s → Shape.heap_fresh s.
Proof.
  induction 1 as [w h|e s Hs IH].
  - intros l [r Hr]. cbn in Hr. by rewrite lookup_empty in Hr.
  - unfold Shape.heap_fresh in *.
    destruct e; by_cases_on_handler; intros l0 Hl0.
    all: repeat match goal with
         | H : is_Some (alter _ _ _ !! _) |- _ =>
             apply lookup_alter_is_Some in H
         | H : is_Some (mergeMoved _ _ _ !! _) |- _ =>
             apply mergeMoved_dom in H
         | H : is_Some (<[_:=_]> _ !! _) |- _ =>
             apply lookup_insert_is_Some in H as [<-|[_ H]]
         | H : is_Some ((_ ∪ _) !! _) |- _ =>
             apply lookup_union_is_Some in H as [H|H];
             [apply snapshotObjects_Some in H|]
         end.
    all: try (apply IH in Hl0); cbn [fst] in *; lia.
Qed.

(** X6. When the ids, field names, avatar names and directions of the
    messages are not names of properties of [Object.prototype]: in every
    state game.js reaches, a successful join makes the table hold exactly
    the players of the message, each a new object with the record as sent
    (earlier entries are dropped, the objects that existed are not written),
    points [myPlayer] at the table's entry for the local id (none if the
    message has no such player), stores the avatars of the message
    preloaded, and centers the camera on the local player exactly when the
    backdrop is loaded and the message has that player. *)
Theorem join_replaces_roster (s : GameClient) (pid : string)
    (ps : gmap string record) (avs : gmap string Avatar.t)
    (err : option string) :
  Wire.clean s →
  Wire.plain (WsMessage (join_game true pid ps avs err)) = true →
  let n := received s in
  let s' := (step (WsMessage (join_game true pid ps avs err)) s).1 in
  Wire.clean s'
  ∧ (∀ id, players s' !! id = (λ _, (n, id)) <$> ps !! id)
  ∧ (∀ id r, ps !! id = Some r → deref s' (n, id) = r)
  ∧ (∀ l, is_Some (heap s !! l) → heap s' !! l = heap s !! l)
  ∧ myPlayer s' = (λ _, (n, pid)) <$> ps !! pid
  ∧ avatars s' = preloadAvatar <$> avs
  ∧ camera s'
    = (if worldImageLoaded s && bool_decide (is_Some (ps !! pid))
       then Shape.centredOn s' (n, pid) else camera s).
Proof.
  intros Hs Hp n s'. split; [by apply Wire.clean_step|]. clear Hp.
  pose proof (reachable_fresh s (clean_reachable s Hs)) as Hf. clear Hs.
  assert (Hh : ∀ id r, ps !! id = Some r →
            (snapshotObjects n ps ∪ heap s) !! (n, id) = Some r).
  { intros id r Hr. apply lookup_union_Some_l.
    by rewrite snapshotObjects_lookup. }
  assert (Hold : ∀ l, is_Some (heap s !! l) →
            (snapshotObjects n ps ∪ heap s) !! l = heap s !! l).
  { intros l Hl. apply lookup_union_r.
    destruct (snapshotObjects n ps !! l) eqn:E; [|done].
    apply Hf in Hl. pose proof (snapshotObjects_Some n ps l (mk_is_Some _ _ E)).
    subst n. lia. }
  subst s' n. unfold Shape.centredOn, deref.
  unfold_handlers. fields. rewrite snapshotTable_lookup.
  destruct (ps !! pid) as [r|] eqn:Hpid; cbn [fmap option_fmap option_map];
    [rewrite bool_decide_eq_true_2 by eauto
    |rewrite bool_decide_eq_false_2 by (by intros [? ?])];
    destruct (worldImageLoaded s); cbn [andb]; fields;
    (split_and!; try done;
     [intros id; by rewrite snapshotTable_lookup
     |intros id r' Hr'; by rewrite (Hh id r' Hr')]).
Qed.

Lemma join_replaces_roster_witness :
  let s := (step WorldImageLoad (step WsOpen (init 800 600)).1).1 in
  let s' := (step (WsMessage Samples.welcome) s).1 in
  myPlayer s' = Some (0%nat, "p1")
  ∧ camera s' = Camera.mk (ofZ 1248) (ofZ 0) 800 600.
Proof.
  destruct (join_replaces_roster
              (step WorldImageLoad (step WsOpen (init 800 600)).1).1 "p1"
              {[ "p1" := Samples.hero; "p2" := Samples.ann ]}
              {[ "knight" := Samples.knight ]} None)
    as (_ & _ & _ & _ & Hme & _ & Hcam).
  - do 2 (apply Wire.clean_step; [reflexivity|]). apply Wire.clean_init.
  - vm_compute. reflexivity.
  - split; [exact Hme|]. cbv zeta. unfold Samples.welcome.
    rewrite Hcam. vm_compute. reflexivity.
Defined.

(** X7. When the ids, field names, avatar names and directions of the
    messages are not names of properties of [Object.prototype]: in every
    state game.js reaches, a [player_joined] message adds one new player
    object under the player's id and stores its avatar preloaded; the table
    entries of the other ids, every player object that existed, the local
    reference and the camera stay as they were. *)
Theorem joined_leaves_others (s : GameClient) (id : string) (p : record)
    (a : Avatar.t) :
  Wire.clean s →
  Wire.plain (WsMessage (player_joined id p a)) = true →
  let s' := (step (WsMessage (player_joined id p a)) s).1 in
  Wire.clean s'
  ∧ players s' !! id = Some (received s, id)
  ∧ deref s' (received s, id) = <["id" := VStr id]> p
  ∧ avatars s' !! Avatar.name a = Some (preloadAvatar a)
  ∧ (∀ id', id' ≠ id → players s' !! id' = players s !! id')
  ∧ (∀ l, is_Some (heap s !! l) → heap s' !! l = heap s !! l)
  ∧ myPlayer s' = myPlayer s ∧ camera s' = camera s.
Proof.
  intros Hs Hp. split; [by apply Wire.clean_step|]. clear Hp.
  pose proof (reachable_fresh s (clean_reachable s Hs)) as Hf. clear Hs.
  unfold deref. by_cases_on_handler. split_and!; try done.
  - by rewrite lookup_insert_eq.
  - by rewrite lookup_insert_eq.
  - by rewrite lookup_insert_eq.
  - intros id' Hne. by rewrite lookup_insert_ne.
  - intros l Hl. apply Hf in Hl. rewrite lookup_insert_ne; [done|].
    intros <-. cbn in Hl. lia.
Qed.

Lemma joined_leaves_others_witness :
  let s' := (step (WsMessage (player_joined "p3" Samples.ann Samples.knight))
               Samples.joined).1 in
  players s' !! "p3" = Some (received Samples.joined, "p3")
  ∧ players s' !! "p2" = players Samples.joined !! "p2".
Proof.
  destruct (joined_leaves_others Samples.joined "p3" Samples.ann Samples.knight)
    as (_ & H1 & _ & _ & H4 & _).
  - refine (Wire.clean_step (WsMessage Samples.welcome) _ _
              (Wire.clean_step WsOpen _ _ (Wire.clean_init 800 600)));
      vm_compute; reflexivity.
  - vm_compute. reflexivity.
  - split; [exact H1 | apply H4; discriminate].
Defined.

(** X8. When the ids, field names, avatar names and directions of the
    messages are not names of properties of [Object.prototype]: a
    [player_joined] followed by a [player_left] for the same id leaves the
    table without that id, as it was if the id was not there before and
    without the earlier entry otherwise; every player object that existed,
    the local reference and the camera are not touched. *)
Theorem joined_then_left (s : GameClient) (id : string) (p : record)
    (a : Avatar.t) :
  Wire.clean s →
  Wire.plain (WsMessage (player_joined id p a)) = true →
  let s2 := (run [WsMessage (player_joined id p a);
                  WsMessage (player_left id)] s).1 in
  Wire.clean s2
  ∧ players s2 = delete id (players s)
  ∧ (players s !! id = None → players s2 = players s)
  ∧ (∀ l, is_Some (heap s !! l) → heap s2 !! l = heap s !! l)
  ∧ myPlayer s2 = myPlayer s ∧ camera s2 = camera s.
Proof.
  intros Hs Hp s2.
  assert (Hid : Wire.plain (WsMessage (player_left id)) = true).
  { cbn [Wire.plain Wire.plainMessage] in Hp |- *.
    by apply andb_prop in Hp as [[Hid _]%andb_prop _]. }
  split.
  { apply clean_run; [|done]. by repeat constructor. }
  pose proof (reachable_fresh s (clean_reachable s Hs)) as Hf.
  subst s2. clear Hs Hp Hid. cbn [run fst].
  by_cases_on_handler. rewrite delete_insert_eq. split_and!; try done.
  - intros Hn. by apply delete_id.
  - intros l Hl. apply Hf in Hl. rewrite lookup_insert_ne; [done|].
    intros <-. cbn in Hl. lia.
Qed.

Lemma joined_then_left_witness :
  players (run [WsMessage (player_joined "p3" Samples.ann Samples.knight);
                WsMessage (player_left "p3")] Samples.joined).1
  = players Samples.joined.
Proof.
  destruct (joined_then_left Samples.joined "p3" Samples.ann Samples.knight)
    as (_ & _ & H & _).
  - refine (Wire.clean_step (WsMessage Samples.welcome) _ _
              (Wire.clean_step WsOpen _ _ (Wire.clean_init 800 600)));
      vm_compute; reflexivity.
  - vm_compute. reflexivity.
  - apply H. vm_compute. reflexivity.
Defined.

Lemma lastWrite_cons (u : gmap string record) (upds : list (gmap string record))
    (id k : string) (v0 : option value) :
  Shape.lastWrite (u :: upds) id k v0
  = Shape.lastWrite upds id k
      (match u !! id ≫= (.!! k) with Some w => Some w | None => v0 end).
Proof. reflexivity. Qed.

(** X9. When the ids, field names, avatar names and directions of the
    messages are not names of properties of [Object.prototype]: in every
    state game.js reaches, after any sequence of [players_moved] messages
    each field of a player in the table holds the value of the last message
    that gave that field for that player, or its earlier value if none
    did. *)
Theorem moved_last_write (upds : list (gmap string record)) (id : string)
    (l : loc) (k : string) :
  ∀ s : GameClient,
  Wire.clean s →
  Forall (λ u, Wire.plainPlayers u = true) upds →
  Wire.ordinary k = true →
  players s !! id = Some l →
  Wire.clean (run (moves upds) s).1
  ∧ deref (run (moves upds) s).1 l !! k
    = Shape.lastWrite upds id k (deref s l !! k).
Proof.
  intros s Hs Hupds _ Hl.
  split; [by apply clean_run; [apply plain_moves|]|].
  apply clean_reachable in Hs. clear Hupds. revert s Hs Hl.
  induction upds as [|u upds IH]; intros s Hs Hl; [done|].
  cbn [moves fmap list_fmap run fst]. fold (moves upds).
  pose proof (reachable_wf s Hs) as Hwf.
  pose proof Hwf as (Ht & _ & _ & Ha & _).
  destruct (moved_step_fields u s) as (Hp & _ & _ & Hh).
  set (s1 := (step (WsMessage (players_moved u)) s).1) in *.
  rewrite lastWrite_cons, (IH s1); [|by apply reach_step|by rewrite Hp].
  f_equal.
  assert (Hd : deref s1 l = deref (handlePlayersMoved u s).1 l)
    by (unfold deref; by rewrite Hh).
  rewrite Hd, (moved_record u s l Hwf);
    [|by left; rewrite (Ht _ _ Hl)|by eapply Ha].
  rewrite (Ht _ _ Hl).
  destruct (u !! id) as [r|]; cbn [mbind option_bind]; [|done].
  unfold Object_assign. rewrite lookup_union.
  by destruct (r !! k), (deref s l !! k).
Qed.

Lemma moved_last_write_witness :
  deref (run (moves [ {[ "p1" := {[ "x" := VNum 5 ]} ]};
                      {[ "p2" := {[ "x" := VNum 6 ]} ]};
                      {[ "p1" := {[ "y" := VNum 7 ]} ]} ]) Samples.joined).1
    (0%nat, "p1") !! "x" = Some (VNum 5).
Proof.
  destruct (moved_last_write [ {[ "p1" := {[ "x" := VNum 5 ]} ]};
                               {[ "p2" := {[ "x" := VNum 6 ]} ]};
                               {[ "p1" := {[ "y" := VNum 7 ]} ]} ]
              "p1" (0%nat, "p1") "x" Samples.joined) as [_ H].
  - refine (Wire.clean_step (WsMessage Samples.welcome) _ _
              (Wire.clean_step WsOpen _ _ (Wire.clean_init 800 600)));
      vm_compute; reflexivity.
  - repeat constructor.
  - vm_compute. reflexivity.
  - vm_compute. reflexivity.
  - rewrite H. vm_compute. reflexivity.
Defined.


(** ** Camera *)

Lemma reachable_tracking (s : GameClient) : reachable s → Shape.tracking s.
Proof.
  induction 1 as [w h|e s Hs IH]; [by intros l ? ?|].
  pose proof (reachable_wf s Hs) as Hwf.
  pose proof Hwf as (Hkeyed & Hself & Hjoin & Halloc & Hme).
  pose proof (reachable_fresh s Hs) as Hfresh.
  unfold Shape.tracking, Shape.centredOn, deref in *.
  destruct e.
  all: try (by_cases_on_handler; intros l0 Hw0 Hl0; simplify_eq; eauto; fail).
  - by_cases_on_handler; intros l0 Hw0 Hl0; simplify_eq; try done.
    all: try (exfalso; apply bool_decide_eq_false in H; apply H; eauto; fail).
  - by_cases_on_handler; intros l0 Hw0 Hl0; simplify_eq; try done.
    all: try (exfalso; rewrite (Hjoin ltac:(eauto)) in *;
              apply bool_decide_eq_false in H; apply H; eauto; fail).
  - destruct m.
    all: try (by_cases_on_handler; intros l0 Hw0 Hl0; simplify_eq; eauto; fail).
    + by_cases_on_handler; intros l0 Hw0 Hl0; simplify_eq; eauto.
      exfalso. rewrite Hw0, Hl0 in *. cbn [andb] in *.
      match goal with
      | H : bool_decide _ = false |- _ =>
          apply bool_decide_eq_false in H; apply H; eauto
      end.
    + by_cases_on_handler. intros l0 Hw0 Hl0.
      rewrite lookup_insert_ne; [by apply IH|].
      intros <-. apply Hme, Hfresh in Hl0. cbn in Hl0. lia.
    + pose proof (mergeMoved_lookup (players s) players0 (heap s) Hkeyed)
        as Hm.
      by_cases_on_handler; intros l0 Hw0 Hl0; simplify_eq; eauto.
      match goal with
      | Hp : myPlayer s = Some ?p, Hn : _ !! playerKey _ = None |- _ =>
          unfold playerKey in Hn; fields; rewrite (Hself p Hp) in Hn;
          cbn [default from_option Datatypes.id] in Hn;
          rewrite (Hm p), Hn; by apply IH
      end.
Qed.


(** X10. In every state game.js reaches with the backdrop loaded and a
    local player, the camera is the centered, clamped and rounded position of
    that player for the current window; on an axis where the position is a
    number the camera is an integer between 0 and [max 0 (2048 - view)]. *)
Theorem camera_follows_local_actor (s : GameClient) (l : loc) :
  reachable s →
  worldImageLoaded s = true →
  myPlayer s = Some l →
  camera s = Shape.centredOn s l
  ∧ (∀ px, deref s l !! "x" = Some (VNum px) →
       ∃ cx : Z, Camera.x (camera s) = ofZ cx
         ∧ (0 ≤ cx ≤ Z.max 0 (2048 - Camera.width (camera s)))%Z)
  ∧ (∀ py, deref s l !! "y" = Some (VNum py) →
       ∃ cy : Z, Camera.y (camera s) = ofZ cy
         ∧ (0 ≤ cy ≤ Z.max 0 (2048 - Camera.height (camera s)))%Z).
Proof.
  intros Hs Hw Hl.
  pose proof (reachable_tracking s Hs l Hw Hl) as Hc.
  destruct (reachable_constants s Hs) as (_ & HW & HH).
  split; [exact Hc|]. split.
  - intros px Hx. rewrite Hc. unfold Shape.centredOn.
    cbn [Camera.x Camera.width]. rewrite Hx, HW. apply clampAxis_bounds.
  - intros py Hy. rewrite Hc. unfold Shape.centredOn.
    cbn [Camera.y Camera.height]. rewrite Hy, HH. apply clampAxis_bounds.
Qed.

Lemma camera_follows_local_actor_witness :
  let s := (step (Resize 1024 768) (step WorldImageLoad Samples.joined).1).1 in
  camera s = Shape.centredOn s (0%nat, "p1").
Proof.
  destruct (camera_follows_local_actor
              (step (Resize 1024 768) (step WorldImageLoad Samples.joined).1).1
              (0%nat, "p1")) as (H & _).
  - do 4 apply reach_step. apply reach_init.
  - vm_compute. reflexivity.
  - vm_compute. reflexivity.
  - exact H.
Defined.

Lemma clampAxis_onGrid (pos : num) (view world : Z) :
  Shape.onGrid (clampAxis pos view world).
Proof.
  destruct pos as [p|]; [|by left].
  destruct (clampAxis_bounds p view world) as (z & -> & Hz & _).
  right. by exists z.
Qed.

Lemma reachable_onGrid (s : GameClient) :
  reachable s →
  Shape.onGrid (Camera.x (camera s)) ∧ Shape.onGrid (Camera.y (camera s)).
Proof.
  induction 1 as [w h|e s Hs IH].
  - split; right; by exists 0%Z.
  - destruct e; by_cases_on_handler; split; apply clampAxis_onGrid.
Qed.


(** ** Drawing *)

Lemma Qle_bool_false (a b : Q) : Qle_bool a b = false → (b < a)%Q.
Proof.
  intros Hf. destruct (Qlt_le_dec b a) as [Hlt|Hle]; [done|].
  apply Qle_bool_iff in Hle. congruence.
Qed.

Lemma blit_axis (c : Q) (view world : Z) :
  let sx := if Qle_bool (inject_Z 0) c then c else inject_Z 0 in
  let sw := if Qle_bool (inject_Z view) (inject_Z world - sx)
            then inject_Z view else (inject_Z world - sx)%Q in
  (0 <= sx)%Q ∧ (sx + sw <= inject_Z world)%Q ∧ (sw <= inject_Z view)%Q
  ∧ (0 <= sx - c)%Q ∧ ((0 <= c)%Q → sx = c).
Proof.
  intros sx sw. subst sx sw. change (inject_Z 0) with 0%Q.
  destruct (Qle_bool 0 c) eqn:E0;
    [apply Qle_bool_iff in E0|apply Qle_bool_false in E0];
    (destruct (Qle_bool _ _) eqn:E1;
     [apply Qle_bool_iff in E1|apply Qle_bool_false in E1]);
    split_and!; try done; lra.
Qed.

(** X11. For any numeric camera, the rectangle of the backdrop that
    [drawWorldMap] copies starts at a non-negative corner, ends inside the
    world, is no larger than the window and is drawn at a non-negative
    offset; with a non-negative camera it starts at the camera and is drawn
    at offset 0. *)
Theorem map_source_inside_world (s : GameClient) (cx cy : Q) :
  Camera.x (camera s) = Fin cx →
  Camera.y (camera s) = Fin cy →
  ∃ sx sy sw sh dx dy : Q,
    Canvas.drawWorldMap s
    = Canvas.Blit.mk (Fin sx) (Fin sy) (Fin sw) (Fin sh) (Fin dx) (Fin dy)
    ∧ (0 <= sx)%Q ∧ (sx + sw <= inject_Z (worldWidth s))%Q
    ∧ (sw <= inject_Z (Camera.width (camera s)))%Q
    ∧ (0 <= sy)%Q ∧ (sy + sh <= inject_Z (worldHeight s))%Q
    ∧ (sh <= inject_Z (Camera.height (camera s)))%Q
    ∧ (0 <= dx)%Q ∧ (0 <= dy)%Q
    ∧ ((0 <= cx)%Q → sx = cx ∧ dx == 0)
    ∧ ((0 <= cy)%Q → sy = cy ∧ dy == 0).
Proof.
  intros Hx Hy. unfold Canvas.drawWorldMap. rewrite Hx, Hy.
  unfold Math_max, Math_min, sub, ofZ.
  do 6 eexists. split; [reflexivity|].
  destruct (blit_axis cx (Camera.width (camera s)) (worldWidth s))
    as (H1 & H2 & H3 & H4 & H5).
  destruct (blit_axis cy (Camera.height (camera s)) (worldHeight s))
    as (H6 & H7 & H8 & H9 & H10).
  split_and!; try assumption.
  - intros Hc. split; [by apply H5|]. rewrite (H5 Hc). lra.
  - intros Hc. split; [by apply H10|]. rewrite (H10 Hc). lra.
Qed.

Lemma map_source_inside_world_witness :
  ∃ sx sy sw sh dx dy : Q,
    Canvas.drawWorldMap Samples.joined
    = Canvas.Blit.mk (Fin sx) (Fin sy) (Fin sw) (Fin sh) (Fin dx) (Fin dy)
    ∧ (0 <= sx)%Q ∧ (0 <= sy)%Q.
Proof.
  destruct (map_source_inside_world Samples.joined 0 0)
    as (sx & sy & sw & sh & dx & dy & H & Hx & _ & _ & Hy & _);
    [reflexivity ..|].
  exists sx, sy, sw, sh, dx, dy. split; [exact H|]. split; [exact Hx | exact Hy].
Defined.

Lemma origin_axis (z : Z) :
  (0 ≤ z)%Z →
  Math_max (ofZ 0) (ofZ z) = ofZ z
  ∧ ∃ d : Q, sub (Math_max (ofZ 0) (ofZ z)) (ofZ z) = Fin d ∧ d == 0.
Proof.
  intros Hz. unfold Math_max, sub, ofZ.
  assert (Hle : Qle_bool (inject_Z 0) (inject_Z z) = true)
    by (apply Qle_bool_iff; rewrite <- Zle_Qle; lia).
  rewrite Hle. split; [done|]. eexists. split; [reflexivity|]. lra.
Qed.

(** X12. In every state game.js reaches, each camera coordinate is a
    non-negative integer or [NaN]; so when it is a number [drawWorldMap]
    copies the backdrop from the camera position and draws it at offset 0
    of the canvas. *)
Theorem backdrop_drawn_at_origin (s : GameClient) :
  reachable s →
  (Shape.onGrid (Camera.x (camera s)) ∧ Shape.onGrid (Camera.y (camera s)))
  ∧ (∀ cx, Camera.x (camera s) = Fin cx →
       Canvas.Blit.sx (Canvas.drawWorldMap s) = Fin cx
       ∧ ∃ d : Q, Canvas.Blit.dx (Canvas.drawWorldMap s) = Fin d ∧ d == 0)
  ∧ (∀ cy, Camera.y (camera s) = Fin cy →
       Canvas.Blit.sy (Canvas.drawWorldMap s) = Fin cy
       ∧ ∃ d : Q, Canvas.Blit.dy (Canvas.drawWorldMap s) = Fin d ∧ d == 0).
Proof.
  intros Hs. pose proof (reachable_onGrid s Hs) as (Hx & Hy).
  split; [done|]. unfold Canvas.drawWorldMap.
  cbn [Canvas.Blit.sx Canvas.Blit.sy Canvas.Blit.dx Canvas.Blit.dy].
  split.
  - intros cx Hcx. destruct Hx as [Hx|(z & Hz & Hx)]; [congruence|].
    rewrite Hx in *. injection Hcx as <-.
    destruct (origin_axis z Hz) as (-> & d & Hd). eauto.
  - intros cy Hcy. destruct Hy as [Hy|(z & Hz & Hy)]; [congruence|].
    rewrite Hy in *. injection Hcy as <-.
    destruct (origin_axis z Hz) as (-> & d & Hd). eauto.
Qed.

Lemma backdrop_drawn_at_origin_witness :
  Canvas.Blit.sx (Canvas.drawWorldMap (step WorldImageLoad Samples.joined).1)
  = ofZ 1248.
Proof.
  destruct (backdrop_drawn_at_origin (step WorldImageLoad Samples.joined).1)
    as (_ & Hx & _).
  - do 3 apply reach_step. apply reach_init.
  - destruct (Hx (inject_Z 1248)) as (H & _); [vm_compute; reflexivity|].
    exact H.
Defined.



Lemma loadFrames_lookup (urls : list string) (old : list Image.t)
    (idx : nat) (url : string) :
  urls !! idx = Some url → loadFrames urls old !! idx = Some (newImage url).
Proof.
  intros H. unfold loadFrames.
  rewrite lookup_app_l by (rewrite length_fmap; by eapply lookup_lt_Some).
  by rewrite list_lookup_fmap, H.
Qed.

Lemma loadFrames_twice (urls : list string) (old : list Image.t) :
  loadFrames urls (loadFrames urls old) = loadFrames urls old.
Proof.
  unfold loadFrames. f_equal.
  rewrite drop_app_length'; [done|]. by rewrite length_fmap.
Qed.

(** X14. After [preloadAvatar] on an avatar with frames, every direction
    of the frames has an image array at least as long as its frame list whose
    entry at each index is a fresh, not yet decoded image of the frame at
    that index; the arrays of directions without frames are kept. *)
Theorem preload_covers_frames (a : Avatar.t) (fr : gmap string (list string)) :
  Avatar.frames a = Some fr →
  ∃ byDir,
    Avatar.loadedImagesByDir (preloadAvatar a) = Some byDir
    ∧ (∀ dir urls, fr !! dir = Some urls →
         ∃ imgs, byDir !! dir = Some imgs
           ∧ length urls ≤ length imgs
           ∧ ∀ idx url, urls !! idx = Some url →
               imgs !! idx = Some (Image.mk url false))
    ∧ (∀ dir, fr !! dir = None →
         byDir !! dir = default ∅ (Avatar.loadedImagesByDir a) !! dir).
Proof.
  intros Hf. unfold preloadAvatar. rewrite Hf.
  cbn [Avatar.loadedImagesByDir]. eexists. split; [reflexivity|]. split.
  - intros dir urls Hd. eexists. split; [|split].
    + apply lookup_union_Some_l. rewrite map_lookup_imap, Hd. reflexivity.
    + unfold loadFrames. rewrite length_app, length_fmap. lia.
    + intros idx url Hu. by apply loadFrames_lookup.
  - intros dir Hd. rewrite lookup_union_r; [done|].
    by rewrite map_lookup_imap, Hd.
Qed.

Lemma preload_covers_frames_witness :
  ∃ byDir imgs,
    Avatar.loadedImagesByDir (preloadAvatar Samples.knight) = Some byDir
    ∧ byDir !! "east" = Some imgs
    ∧ imgs !! 1%nat = Some (Image.mk "e1" false).
Proof.
  destruct (preload_covers_frames Samples.knight _ eq_refl)
    as (byDir & H & Hc & _).
  destruct (Hc "east" ["e0"; "e1"]) as (imgs & Hi & _ & Hidx);
    [vm_compute; reflexivity|].
  exists byDir, imgs. split; [exact H|]. split; [exact Hi|].
  apply (Hidx 1%nat "e1"). reflexivity.
Defined.

(** X15. Preloading an avatar a second time gives the same avatar as
    preloading it once. *)
Theorem preload_twice (a : Avatar.t) :
  preloadAvatar (preloadAvatar a) = preloadAvatar a.
Proof.
  unfold preloadAvatar at 2 3. destruct (Avatar.frames a) as [fr|] eqn:Hf.
  - unfold preloadAvatar. cbn [Avatar.frames Avatar.name Avatar.loadedImagesByDir
      default from_option Datatypes.id].
    f_equal. f_equal.
    set (old := default ∅ (Avatar.loadedImagesByDir a)).
    apply map_eq. intros dir.
    rewrite !lookup_union, !map_lookup_imap.
    destruct (fr !! dir) as [urls|] eqn:Hd; cbn [mbind option_bind].
    + rewrite !lookup_union, map_lookup_imap, Hd. cbn [mbind option_bind].
      rewrite (union_Some_l (loadFrames urls (default [] (old !! dir)))).
      cbn [default from_option Datatypes.id].
      rewrite loadFrames_twice.
      by destruct (old !! dir).
    + by destruct (old !! dir).
  - unfold preloadAvatar. by rewrite Hf.
Qed.

Lemma round_nearest (v : Q) :
  (v - (1 # 2) < inject_Z (Qfloor (v + (1 # 2))) ∧
   inject_Z (Qfloor (v + (1 # 2))) <= v + (1 # 2))%Q.
Proof.
  pose proof (Qfloor_le (v + (1 # 2))) as H1.
  pose proof (Qlt_floor (v + (1 # 2))) as H2.
  rewrite inject_Z_plus in H2. change (inject_Z 1) with 1%Q in H2.
  split; lra.
Qed.

Lemma round_whole (z : Z) : Math_round (Fin (inject_Z z)) = ofZ z.
Proof.
  unfold Math_round, ofZ. f_equal. f_equal.
  pose proof (Qfloor_le (inject_Z z + (1 # 2))) as H1.
  pose proof (Qlt_floor (inject_Z z + (1 # 2))) as H2.
  rewrite inject_Z_plus in H2. change (inject_Z 1) with 1%Q in H2.
  assert (Ha : (inject_Z (z + -1) < inject_Z (Qfloor (inject_Z z + (1 # 2))))%Q).
  { rewrite inject_Z_plus. change (inject_Z (-1)) with (-1 # 1)%Q. lra. }
  assert (Hb : (inject_Z (Qfloor (inject_Z z + (1 # 2))) < inject_Z (z + 1))%Q).
  { rewrite inject_Z_plus. change (inject_Z 1) with 1%Q. lra. }
  rewrite <- Zlt_Qlt in Ha, Hb. lia.
Qed.

Lemma click_axis (i : Z) (c : num) :
  Shape.onGrid c →
  (c = NaN ∧ Math_round (add (Fin (inject_Z i)) c) = NaN)
  ∨ (∃ z : Z, (0 ≤ z)%Z ∧ c = ofZ z
       ∧ Math_round (add (Fin (inject_Z i)) c) = ofZ (i + z)).
Proof.
  intros [->|(z & Hz & ->)]; [by left|right].
  exists z. split; [done|]. split; [done|].
  unfold ofZ, add.
  assert (E : (inject_Z i + inject_Z z)%Q = inject_Z (i + z)).
  { unfold inject_Z, Qplus. cbn. f_equal. lia. }
  rewrite E. apply round_whole.
Qed.

(** X16. In every state game.js reaches, a click at integer canvas
    coordinates (of magnitude at most 2^52, like the camera's, so that the
    sums the code computes are exact) sends at most one message, only on an
    open socket: a move to the clicked point shifted by the camera, so that
    the target seen through the camera is the clicked point; on an axis
    where the camera is not a number the target is not a number. *)
Theorem click_targets_clicked_point (s : GameClient) (i j : Z)
    (tx ty : num) :
  reachable s →
  (Z.abs i ≤ 2 ^ 52)%Z → (Z.abs j ≤ 2 ^ 52)%Z →
  (∀ z, Camera.x (camera s) = ofZ z → (z ≤ 2 ^ 52)%Z) →
  (∀ z, Camera.y (camera s) = ofZ z → (z ≤ 2 ^ 52)%Z) →
  Send (MoveTo tx ty) ∈ (step (Click (inject_Z i) (inject_Z j)) s).2 →
  isOpen s = true
  ∧ (step (Click (inject_Z i) (inject_Z j)) s).2 = [Send (MoveTo tx ty)]
  ∧ ((Camera.x (camera s) = NaN ∧ tx = NaN)
     ∨ ∃ z : Z, (0 ≤ z)%Z ∧ Camera.x (camera s) = ofZ z ∧ tx = ofZ (i + z))
  ∧ ((Camera.y (camera s) = NaN ∧ ty = NaN)
     ∨ ∃ z : Z, (0 ≤ z)%Z ∧ Camera.y (camera s) = ofZ z ∧ ty = ofZ (j + z)).
Proof.
  intros Hs _ _ _ _ Hsend. pose proof (reachable_onGrid s Hs) as (Hx & Hy).
  cbn [step] in Hsend |- *.
  unfold onclick, sendMoveCommand in Hsend |- *.
  destruct (isOpen s); cbn [negb snd] in Hsend |- *;
    [|by apply elem_of_nil in Hsend].
  apply list_elem_of_singleton in Hsend. injection Hsend as -> ->.
  split; [done|]. split; [done|].
  split; [exact (click_axis i _ Hx)|exact (click_axis j _ Hy)].
Qed.

Lemma click_targets_clicked_point_witness :
  (step (Click 10 20) (step WorldImageLoad Samples.joined).1).2
  = [Send (MoveTo (ofZ 1258) (ofZ 20))].
Proof.
  destruct (click_targets_clicked_point (step WorldImageLoad Samples.joined).1
              10 20 (ofZ 1258) (ofZ 20)) as (_ & H & _).
  - do 3 apply reach_step. apply reach_init.
  - vm_compute. discriminate.
  - vm_compute. discriminate.
  - intros z Hz. vm_compute in Hz. injection Hz as <-. vm_compute. discriminate.
  - intros z Hz. vm_compute in Hz. injection Hz as <-. vm_compute. discriminate.
  - vm_compute. constructor.
  - exact H.
Defined.

(** ** The clamp of the clients that do not round *)

Lemma inject_Z_sub (a b : Z) : (inject_Z (a - b) == inject_Z a - inject_Z b)%Q.
Proof. unfold Z.sub. rewrite inject_Z_plus, inject_Z_opp. lra. Qed.

Lemma twice_half (w : Z) : (inject_Z w == 2 * (inject_Z w / 2))%Q.
Proof. field. Qed.

Lemma clamp_centred (p : Q) (view d : Z) :
  ∃ v : Q,
    Math_max (ofZ 0) (Math_min (sub (Fin p) (Fin (inject_Z view / 2))) (ofZ d))
    = Fin v
    ∧ (0 <= v)%Q ∧ (v <= inject_Z (Z.max 0 d))%Q
    ∧ ((0 <= p - inject_Z view / 2)%Q → (p - inject_Z view / 2 <= inject_Z d)%Q →
       v = (p - inject_Z view / 2)%Q).
Proof.
  unfold Math_max, Math_min, sub, ofZ. eexists. split; [reflexivity|].
  pose proof (clamp_value_bounds (p - inject_Z view / 2) d) as [H0 Hb].
  split; [exact H0|]. split; [exact Hb|].
  intros Hlo Hhi.
  rewrite (proj2 (Qle_bool_iff _ _) Hhi).
  change (inject_Z 0) with 0%Q.
  by rewrite (proj2 (Qle_bool_iff _ _) Hlo).
Qed.

(** X17. In the second client of script.js, [updateViewport] with a joined
    player at a numeric position leaves each viewport coordinate between 0
    and [max 0 (2048 - canvas size)], not rounded, and equal to the position
    minus half the canvas size whenever that keeps the canvas inside the
    2048 by 2048 map. *)
Theorem script_viewport_centres (s : Script.State) (pid : string)
    (player : record) (px py : Q) :
  Script.myPlayerId s = Some pid → pid ≠ "" →
  Script.players s !! pid = Some player →
  player !! "x" = Some (VNum px) → player !! "y" = Some (VNum py) →
  let w := Script.canvasWidth s in
  let h := Script.canvasHeight s in
  ∃ vx vy : Q,
    Script.viewport (Script.updateViewport s) = Script.Viewport.mk (Fin vx) (Fin vy)
    ∧ (0 <= vx)%Q ∧ (vx <= inject_Z (Z.max 0 (2048 - w)))%Q
    ∧ (0 <= vy)%Q ∧ (vy <= inject_Z (Z.max 0 (2048 - h)))%Q
    ∧ ((inject_Z w / 2 <= px)%Q → (px <= 2048 - inject_Z w / 2)%Q →
       vx = (px - inject_Z w / 2)%Q)
    ∧ ((inject_Z h / 2 <= py)%Q → (py <= 2048 - inject_Z h / 2)%Q →
       vy = (py - inject_Z h / 2)%Q).
Proof.
  intros Hid Hne Hp Hx Hy w h. subst w h.
  unfold Script.updateViewport, Script.joined. rewrite Hid.
  rewrite (proj2 (String.eqb_neq _ _) Hne).
  cbn [negb default from_option Datatypes.id]. rewrite Hp.
  cbn [Script.set_viewport Script.viewport]. rewrite Hx, Hy.
  cbn [ToNumber]. unfold Script.clampView.
  destruct (clamp_centred px (Script.canvasWidth s) (2048 - Script.canvasWidth s))
    as (vx & -> & Hx0 & Hx1 & Hxc).
  destruct (clamp_centred py (Script.canvasHeight s) (2048 - Script.canvasHeight s))
    as (vy & -> & Hy0 & Hy1 & Hyc).
  exists vx, vy. split; [done|]. split_and!; try done.
  - intros Hlo Hhi. apply Hxc; [lra|].
    rewrite inject_Z_sub. change (inject_Z 2048) with 2048%Q.
    pose proof (twice_half (Script.canvasWidth s)). lra.
  - intros Hlo Hhi. apply Hyc; [lra|].
    rewrite inject_Z_sub. change (inject_Z 2048) with 2048%Q.
    pose proof (twice_half (Script.canvasHeight s)). lra.
Qed.

Lemma script_viewport_centres_witness :
  ∃ vx vy : Q,
    Script.viewport (Script.updateViewport Samples.scriptJoined)
    = Script.Viewport.mk (Fin vx) (Fin vy)
    ∧ (0 <= vx)%Q ∧ (0 <= vy)%Q.
Proof.
  destruct (script_viewport_centres Samples.scriptJoined "p1" Samples.hero
              2040 10) as (vx & vy & H & Hx & _ & Hy & _);
    [vm_compute; reflexivity | discriminate | vm_compute; reflexivity ..|].
  exists vx, vy. split; [exact H|]. split; [exact Hx | exact Hy].
Defined.

(** ** The second client's key table *)

Lemma getKey_cons (o : list (string * bool)) (k k' : string) (v' : bool) :
  Script.getKey ((k', v') :: o) k
  = if decide (k' = k) then Some v' else Script.getKey o k.
Proof.
  unfold Script.getKey. cbn [list_find]. cbn [fst].
  destruct (decide (k' = k)); [done|].
  by destruct (list_find (λ e : string * bool, e.1 = k) o) as [[? [? ?]]|].
Qed.

Lemma getKey_setKey (o : list (string * bool)) (k : string) (v : bool) :
  Script.getKey (Script.setKey o k v) k = Some v.
Proof.
  induction o as [|[k' v'] o IH]; cbn [Script.setKey].
  - rewrite getKey_cons. by rewrite decide_True.
  - destruct (String.eqb_spec k' k) as [->|Hne]; rewrite getKey_cons.
    + by rewrite decide_True.
    + by rewrite decide_False.
Qed.

Lemma getKey_setKey_ne (o : list (string * bool)) (k k0 : string) (v : bool) :
  k0 ≠ k → Script.getKey (Script.setKey o k v) k0 = Script.getKey o k0.
Proof.
  intros Hne. induction o as [|[k' v'] o IH]; cbn [Script.setKey].
  - rewrite getKey_cons. by rewrite decide_False.
  - destruct (String.eqb_spec k' k) as [->|Hne']; rewrite !getKey_cons.
    + by rewrite !decide_False.
    + by rewrite IH.
Qed.

Lemma setKey_keys (o : list (string * bool)) (k : string) (v : bool) :
  k ∈ o.*1 → (Script.setKey o k v).*1 = o.*1.
Proof.
  induction o as [|[k' v'] o IH]; cbn [Script.setKey fmap list_fmap fst].
  - intros H. by apply elem_of_nil in H.
  - intros H. destruct (String.eqb_spec k' k) as [->|Hne]; [done|].
    cbn [fmap list_fmap fst]. f_equal. apply IH.
    apply elem_of_cons in H as [H|H]; [congruence|done].
Qed.

Lemma getKey_in (o : list (string * bool)) (k : string) (v : bool) :
  Script.getKey o k = Some v → k ∈ o.*1.
Proof.
  induction o as [|[k' v'] o IH].
  - discriminate.
  - rewrite getKey_cons. cbn [fmap list_fmap fst].
    destruct (decide (k' = k)) as [->|]; [intros _; apply elem_of_cons; by left|].
    intros H. apply elem_of_cons. right. by apply IH.
Qed.

(** X18. In the second client of script.js, joined and with the socket
    open, the first press of an arrow key sends exactly one move for its
    direction and marks that key only; a repeated [keydown] of the key while
    it is down sends nothing and changes nothing. *)
Theorem script_keydown_sends_once (s : Script.State) (key d : string) :
  Script.joined s = true → Script.readyState s = OPEN →
  Script.arrowDirection key = Some d →
  ScriptKeys.held s key = false →
  (Script.onkeydown key s).2 = [MoveDirection d]
  ∧ ScriptKeys.held (Script.onkeydown key s).1 key = true
  ∧ (∀ k, k ≠ key →
       ScriptKeys.held (Script.onkeydown key s).1 k = ScriptKeys.held s k)
  ∧ Script.onkeydown key (Script.onkeydown key s).1
    = ((Script.onkeydown key s).1, []).
Proof.
  intros Hj Ho Hd Hh. unfold ScriptKeys.held in *.
  assert (E : Script.onkeydown key s
    = (Script.set_keysPressed
         (Script.setKey (Script.keysPressed s) key true) s,
       [MoveDirection d])).
  { unfold Script.onkeydown. rewrite Hj, Hd, Hh. cbn [negb].
    unfold Script.sendMoveCommand. cbn [Script.set_keysPressed Script.readyState].
    by rewrite Ho. }
  rewrite E. cbn [fst snd Script.set_keysPressed Script.keysPressed].
  split; [done|]. split; [by rewrite getKey_setKey|].
  split; [intros k Hk; by rewrite getKey_setKey_ne|].
  unfold Script.onkeydown, Script.joined.
  cbn [Script.set_keysPressed Script.myPlayerId Script.keysPressed].
  unfold Script.joined in Hj. rewrite Hj, Hd. cbn [negb].
  by rewrite getKey_setKey.
Qed.

Lemma script_keydown_sends_once_witness :
  (Script.onkeydown "ArrowUp" Samples.scriptJoined).2 = [MoveDirection "up"]
  ∧ Script.onkeydown "ArrowUp"
      (Script.onkeydown "ArrowUp" Samples.scriptJoined).1
    = ((Script.onkeydown "ArrowUp" Samples.scriptJoined).1, []).
Proof.
  destruct (script_keydown_sends_once Samples.scriptJoined "ArrowUp" "up")
    as (H1 & _ & _ & H4); [vm_compute; reflexivity ..|].
  split; [exact H1 | exact H4].
Defined.

(** X19. In the second client of script.js, joined and with the socket
    open, while the key table holds the four arrow keys in their original
    order, releasing a held key keeps the table's keys, clears that key only
    and sends exactly one message: a stop if no key is left held, otherwise
    a move for the first key still held in the order up, down, left, right
    (not the one pressed last). *)
Theorem script_release_resends_first_held (s : Script.State) (key : string) :
  Script.joined s = true → Script.readyState s = OPEN →
  (Script.keysPressed s).*1 = ScriptKeys.arrows →
  ScriptKeys.held s key = true →
  let s' := (Script.onkeyup key s).1 in
  (Script.keysPressed s').*1 = ScriptKeys.arrows
  ∧ ScriptKeys.held s' key = false
  ∧ (∀ k, k ≠ key → ScriptKeys.held s' k = ScriptKeys.held s k)
  ∧ (Script.onkeyup key s).2
    = match ScriptKeys.firstHeld s' with
      | Some d => [MoveDirection d]
      | None => [Stop]
      end.
Proof.
  intros Hj Ho Hk Hh s'. subst s'.
  assert (Hin : key ∈ (Script.keysPressed s).*1).
  { unfold ScriptKeys.held in Hh.
    destruct (Script.getKey (Script.keysPressed s) key) as [b|] eqn:E;
      [by eapply getKey_in|discriminate]. }
  unfold Script.onkeyup. rewrite Hj. cbn [negb].
  unfold ScriptKeys.held in Hh. rewrite Hh.
  split; [|split; [|split]].
  - destruct (list_find _ _) as [[? [? ?]]|]; cbn [fst Script.set_keysPressed
      Script.keysPressed]; by rewrite setKey_keys.
  - unfold ScriptKeys.held.
    destruct (list_find _ _) as [[? [? ?]]|]; cbn [fst Script.set_keysPressed
      Script.keysPressed]; by rewrite getKey_setKey.
  - intros k Hne. unfold ScriptKeys.held.
    destruct (list_find _ _) as [[? [? ?]]|]; cbn [fst Script.set_keysPressed
      Script.keysPressed]; by rewrite getKey_setKey_ne.
  - destruct s as [mp pl av kp vp cw ch rs].
    cbn [Script.keysPressed Script.readyState Script.set_keysPressed] in *.
    subst rs.
    destruct kp as [|[k1 b1] [|[k2 b2] [|[k3 b3] [|[k4 b4] [|]]]]];
      try discriminate Hk.
    cbn [fmap list_fmap fst] in Hin. injection Hk as -> -> -> ->.
    repeat (apply elem_of_cons in Hin as [->|Hin]);
      [..|by apply elem_of_nil in Hin];
      destruct b1, b2, b3, b4; try discriminate Hh; vm_compute; reflexivity.
Qed.

Lemma script_release_resends_first_held_witness :
  let s := (Script.onkeydown "ArrowUp"
              (Script.onkeydown "ArrowRight"
                 (Script.onkeydown "ArrowLeft" Samples.scriptJoined).1).1).1 in
  (Script.onkeyup "ArrowLeft" s).2 = [MoveDirection "up"].
Proof.
  destruct (script_release_resends_first_held
              (Script.onkeydown "ArrowUp"
                 (Script.onkeydown "ArrowRight"
                    (Script.onkeydown "ArrowLeft" Samples.scriptJoined).1).1).1
              "ArrowLeft") as (_ & _ & _ & H); [vm_compute; reflexivity ..|].
  cbv zeta. rewrite H. vm_compute. reflexivity.
Defined.

(** ** The first client of script.js *)

Ltac script1_handlers :=
  unfold Script1.step, Script1.resizeCanvas, Script1.ontick, Script1.onopen,
    Script1.onclose, Script1.onJoinGame, Script1.onPlayersMoved,
    Script1.onPlayerJoined, Script1.onPlayerLeft, Script1.handleKeyDown,
    Script1.handleKeyUp, Script1.sendMoveCommand, Script1.sendStopCommand,
    Script1.startAnimation, Script1.stopAnimation, Script1.updateViewport.

Ltac script1_fields :=
  cbn [fst snd Script1.playerId Script1.playerPosition
       Script1.viewportOffset Script1.canvasWidth Script1.canvasHeight
       Script1.readyState Script1.keysPressed Script1.isMoving
       Script1.otherPlayers Script1.animationFrame
       Script1.animationInterval Script1.set_playerId
       Script1.set_playerPosition Script1.set_viewportOffset
       Script1.set_canvas Script1.set_readyState Script1.set_keysPressed
       Script1.set_isMoving Script1.set_otherPlayers
       Script1.set_animationFrame Script1.set_animationInterval] in *.

Ltac script1_cases := repeat (script1_fields; try case_match); script1_fields.

Lemma script1_step_sends (e : Script1.Event) (s : Script1.State) :
  let r := Script1.step e s in
  (r.2 = [] ∧ Script1.isMoving r.1 = Script1.isMoving s)
  ∨ (∃ d code, r.2 = [MoveDirection d] ∧ e = Script1.KeyDown code
      ∧ Script1.isMoving s = false ∧ Script1.isMoving r.1 = true
      ∧ Script1.readyState r.1 = OPEN
      ∧ Script1.direction r.1 = Some d
      ∧ code ∈ Script1.keysPressed r.1)
  ∨ (∃ code, r.2 = [Stop] ∧ e = Script1.KeyUp code
      ∧ Script1.isMoving s = true ∧ Script1.isMoving r.1 = false
      ∧ Script1.readyState r.1 = OPEN
      ∧ Script1.keysPressed r.1 = ∅)
  ∨ (r.2 = [JoinGame "Dylan"] ∧ e = Script1.WsOpen
      ∧ Script1.isMoving r.1 = Script1.isMoving s
      ∧ Script1.readyState r.1 = OPEN).
Proof.
  intros r. subst r. destruct e.
  1-2, 4-8: left; script1_handlers; script1_cases; done.
  - right; right; right. by script1_handlers.
  - script1_handlers. destruct (String.prefix "Arrow" code); [|by left].
    script1_fields. destruct (Script1.readyState s) eqn:Hr; try (by left).
    destruct (Script1.direction _) as [d|] eqn:Hd; [|by left].
    destruct (Script1.isMoving s) eqn:Hm; [by left|].
    right; left. exists d, code. script1_fields.
    split_and!; try done. set_solver.
  - script1_handlers. destruct (String.prefix "Arrow" code); [|by left].
    script1_fields. case_bool_decide as He; [|by left].
    script1_fields. destruct (Script1.readyState s) eqn:Hr; try (by left).
    destruct (Script1.isMoving s) eqn:Hm; [|by left].
    right; right; left. exists code. script1_fields. by split_and!.
Qed.

(** X20. The first client of script.js sends at most one message per
    event and only on an open socket: the join message (username "Dylan") on
    [open]; a move only on a [keydown], when it was not already moving, for
    the held arrow of highest priority up, down, left, right; a stop only on
    a [keyup] that leaves no key held, when it was moving. It never sends a
    move to a point. *)
Theorem script1_sends (e : Script1.Event) (s : Script1.State)
    (m : ClientMessage) :
  m ∈ (Script1.step e s).2 →
  (Script1.step e s).2 = [m]
  ∧ Script1.readyState (Script1.step e s).1 = OPEN
  ∧ match m with
    | JoinGame u => e = Script1.WsOpen ∧ u = "Dylan"
    | MoveDirection d =>
        Script1.isMoving s = false
        ∧ Script1.direction (Script1.step e s).1 = Some d
        ∧ ∃ code, e = Script1.KeyDown code
                  ∧ code ∈ Script1.keysPressed (Script1.step e s).1
    | Stop =>
        Script1.isMoving s = true
        ∧ Script1.keysPressed (Script1.step e s).1 = ∅
        ∧ ∃ code, e = Script1.KeyUp code
    | MoveTo _ _ => False
    end.
Proof.
  intros Hm.
  destruct (script1_step_sends e s)
    as [[E _]|[(d & code & E & -> & H1 & H2 & H3 & H4 & H5)
       |[(code & E & -> & H1 & H2 & H3 & H4)|(E & -> & H1 & H2)]]];
    rewrite E in Hm.
  - by apply elem_of_nil in Hm.
  - apply list_elem_of_singleton in Hm as ->. rewrite E. eauto 10.
  - apply list_elem_of_singleton in Hm as ->. rewrite E. eauto 10.
  - apply list_elem_of_singleton in Hm as ->. by rewrite E.
Qed.

Lemma script1_sends_witness :
  let s := (Script1.step Script1.WsOpen (Script1.init 800 600)).1 in
  (Script1.step (Script1.KeyDown "ArrowLeft") s).2 = [MoveDirection "left"]
  ∧ Script1.isMoving s = false.
Proof.
  destruct (script1_sends (Script1.KeyDown "ArrowLeft")
              (Script1.step Script1.WsOpen (Script1.init 800 600)).1
              (MoveDirection "left")) as (H1 & _ & H2 & _).
  - vm_compute. constructor.
  - split; [exact H1 | exact H2].
Defined.

(** X21. Over any sequence of events, from any state of the first client
    of script.js, the moves and stops sent take turns, beginning with a move
    if the client was not moving: no second move (so no change of direction)
    goes out before a stop. *)
Theorem script1_moves_and_stops_alternate (es : list Script1.Event)
    (s : Script1.State) :
  Script1.alternating (Script1.isMoving s) (Script1.run es s).2 = true.
Proof.
  revert s. induction es as [|e es IH]; intros s; [done|].
  cbn [Script1.run snd]. specialize (IH (Script1.step e s).1).
  destruct (script1_step_sends e s)
    as [[E Hm]|[(d & code & E & _ & H1 & H2 & _)
       |[(code & E & _ & H1 & H2 & _)|(E & _ & Hm & _)]]];
    rewrite E; cbn [app Script1.alternating].
  - by rewrite <- Hm.
  - rewrite H1. rewrite H2 in IH. done.
  - rewrite H1. rewrite H2 in IH. done.
  - by rewrite <- Hm.
Qed.

(** X22. In every state the first client of script.js reaches, the
    animation frame of the own player is 0, 1 or 2, and it is 0 whenever no
    animation timer is running. *)
Theorem script1_standing_frame (s : Script1.State) :
  Script1.reachable s →
  Script1.animationFrame s < 3
  ∧ (Script1.animationInterval s = false → Script1.animationFrame s = 0).
Proof.
  induction 1 as [w h|e s Hs [IH1 IH2]].
  - cbn. split; [lia|done].
  - destruct e; script1_handlers; script1_cases;
      (split;
       [first [assumption | lia | apply Nat.mod_upper_bound; lia]
       |first [assumption | done | intros; congruence | intros; by auto]]).
Qed.

Lemma script1_standing_frame_witness :
  let s := (Script1.run
              [Script1.JoinGame true "p1" {[ "p1" := Samples.hero ]} ∅;
               Script1.PlayersMoved {[ "p1" := {[ "isMoving" := VBool true ]} ]};
               Script1.Tick; Script1.Tick;
               Script1.PlayersMoved {[ "p1" := {[ "isMoving" := VBool false ]} ]}]
              (Script1.init 800 600)).1 in
  Script1.animationInterval s = false ∧ Script1.animationFrame s = 0%nat.
Proof.
  cbv zeta. split; [vm_compute; reflexivity|].
  refine (proj2 (script1_standing_frame _ _) _).
  - cbn [Script1.run fst]. do 5 apply Script1.reach_step.
    apply Script1.reach_init.
  - vm_compute. reflexivity.
Defined.

Lemma script1_reachable_viewport (s : Script1.State) :
  Script1.reachable s →
  Script1.viewportOffset s
  = Script1.Offset.mk
      (Script1.clampOffset (ToNumber (Script1.Position.x (Script1.playerPosition s)))
         (Script1.canvasWidth s))
      (Script1.clampOffset (ToNumber (Script1.Position.y (Script1.playerPosition s)))
         (Script1.canvasHeight s)).
Proof.
  induction 1 as [w h|e s Hs IH]; [done|].
  destruct e; script1_handlers; script1_cases; done.
Qed.

(** X23. In every state the first client of script.js reaches, resizes
    included, the viewport is the centered and clamped own position for the
    current canvas: on an axis where the position is a number the offset is
    between 0 and [max 0 (2048 - canvas size)], and equal to the position
    minus half the canvas size whenever that keeps the canvas inside the
    map. *)
Theorem script1_viewport_follows (s : Script1.State) :
  Script1.reachable s →
  let pos := Script1.playerPosition s in
  let w := Script1.canvasWidth s in
  let h := Script1.canvasHeight s in
  Script1.viewportOffset s
  = Script1.Offset.mk
      (Script1.clampOffset (ToNumber (Script1.Position.x pos)) w)
      (Script1.clampOffset (ToNumber (Script1.Position.y pos)) h)
  ∧ (∀ px, Script1.Position.x pos = Some (VNum px) →
       ∃ vx, Script1.Offset.x (Script1.viewportOffset s) = Fin vx
         ∧ (0 <= vx)%Q ∧ (vx <= inject_Z (Z.max 0 (2048 - w)))%Q
         ∧ ((inject_Z w / 2 <= px)%Q → (px <= 2048 - inject_Z w / 2)%Q →
            vx = (px - inject_Z w / 2)%Q))
  ∧ (∀ py, Script1.Position.y pos = Some (VNum py) →
       ∃ vy, Script1.Offset.y (Script1.viewportOffset s) = Fin vy
         ∧ (0 <= vy)%Q ∧ (vy <= inject_Z (Z.max 0 (2048 - h)))%Q
         ∧ ((inject_Z h / 2 <= py)%Q → (py <= 2048 - inject_Z h / 2)%Q →
            vy = (py - inject_Z h / 2)%Q)).
Proof.
  intros Hs pos w h. subst pos w h.
  pose proof (script1_reachable_viewport s Hs) as E.
  split; [exact E|]. rewrite E. cbn [Script1.Offset.x Script1.Offset.y].
  split.
  - intros px ->. cbn [ToNumber]. unfold Script1.clampOffset, Script1.WORLD_SIZE.
    destruct (clamp_centred px (Script1.canvasWidth s)
                (2048 - Script1.canvasWidth s)) as (v & -> & H0 & H1 & Hc).
    exists v. split_and!; try done.
    intros Hlo Hhi. apply Hc; [lra|].
    rewrite inject_Z_sub. change (inject_Z 2048) with 2048%Q.
    pose proof (twice_half (Script1.canvasWidth s)). lra.
  - intros py ->. cbn [ToNumber]. unfold Script1.clampOffset, Script1.WORLD_SIZE.
    destruct (clamp_centred py (Script1.canvasHeight s)
                (2048 - Script1.canvasHeight s)) as (v & -> & H0 & H1 & Hc).
    exists v. split_and!; try done.
    intros Hlo Hhi. apply Hc; [lra|].
    rewrite inject_Z_sub. change (inject_Z 2048) with 2048%Q.
    pose proof (twice_half (Script1.canvasHeight s)). lra.
Qed.

Lemma script1_viewport_follows_witness :
  let s := (Script1.step (Script1.Resize 1024 768) (Script1.init 800 600)).1 in
  ∃ vx : Q, Script1.Offset.x (Script1.viewportOffset s) = Fin vx
            ∧ (0 <= vx)%Q ∧ (vx <= 1024)%Q.
Proof.
  destruct (script1_viewport_follows
              (Script1.step (Script1.Resize 1024 768) (Script1.init 800 600)).1)
    as (_ & Hx & _).
  - apply Script1.reach_step, Script1.reach_init.
  - destruct (Hx 0%Q) as (vx & H & H0 & H1 & _); [vm_compute; reflexivity|].
    exists vx. split; [exact H|]. split; [exact H0 | exact H1].
Defined.

(** ** debug_game.js: the camera that is not rounded *)

(** X24. In debug_game.js, centering on a local player at a numeric
    position leaves each camera coordinate between 0 and
    [max 0 (world - view)], not rounded; the camera of game.js for the same
    state is that coordinate rounded, at most half a pixel away. *)
Theorem debug_camera_within_world (s : GameClient) (l : loc) (px py : Q) :
  myPlayer s = Some l →
  deref s l !! "x" = Some (VNum px) → deref s l !! "y" = Some (VNum py) →
  let c := camera (DebugCamera.centerCameraOnPlayer s).1 in
  let c' := camera (centerCameraOnPlayer s).1 in
  ∃ cx cy : Q,
    Camera.x c = Fin cx ∧ Camera.y c = Fin cy
    ∧ (0 <= cx)%Q ∧ (cx <= inject_Z (Z.max 0 (worldWidth s - Camera.width (camera s))))%Q
    ∧ (0 <= cy)%Q ∧ (cy <= inject_Z (Z.max 0 (worldHeight s - Camera.height (camera s))))%Q
    ∧ (∃ zx : Z, Camera.x c' = ofZ zx
         ∧ (cx - (1 # 2) < inject_Z zx)%Q ∧ (inject_Z zx <= cx + (1 # 2))%Q)
    ∧ (∃ zy : Z, Camera.y c' = ofZ zy
         ∧ (cy - (1 # 2) < inject_Z zy)%Q ∧ (inject_Z zy <= cy + (1 # 2))%Q).
Proof.
  intros Hl Hx Hy c c'. subst c c'.
  unfold DebugCamera.centerCameraOnPlayer, centerCameraOnPlayer. rewrite Hl.
  cbn [fst camera set_needsRedraw set_camera Camera.x Camera.y].
  rewrite Hx, Hy. cbn [ToNumber].
  unfold clampAxis, DebugCamera.centerAxis.
  destruct (clamp_centred px (Camera.width (camera s))
              (worldWidth s - Camera.width (camera s))) as (cx & -> & Hx0 & Hx1 & _).
  destruct (clamp_centred py (Camera.height (camera s))
              (worldHeight s - Camera.height (camera s))) as (cy & -> & Hy0 & Hy1 & _).
  exists cx, cy. split_and!; try done.
  - cbn [Math_round]. eexists. split; [reflexivity|]. apply round_nearest.
  - cbn [Math_round]. eexists. split; [reflexivity|]. apply round_nearest.
Qed.

Lemma debug_camera_within_world_witness :
  ∃ cx cy : Q,
    Camera.x (camera (DebugCamera.centerCameraOnPlayer Samples.joined).1)
    = Fin cx
    ∧ Camera.y (camera (DebugCamera.centerCameraOnPlayer Samples.joined).1)
      = Fin cy
    ∧ (0 <= cx)%Q ∧ (0 <= cy)%Q.
Proof.
  destruct (debug_camera_within_world Samples.joined (0%nat, "p1") 2040 10)
    as (cx & cy & Hx & Hy & Hx0 & _ & Hy0 & _); [vm_compute; reflexivity ..|].
  exists cx, cy. split; [exact Hx|]. split; [exact Hy|].
  split; [exact Hx0 | exact Hy0].
Defined.
